(** * Course recommender: the retrieval core of [course.py]

    A shallow embedding of the filter-then-rank pipeline of the Streamlit
    script [src/course.py]: the module-level corpus construction (lines
    25-39), the ranker [recommend_documents] (lines 44-47), the sidebar
    filter and the guarded search of the Home page (lines 69-87) and the
    session's list of saved courses (lines 53-54, 97-99).

    Conventions.
    - A MongoDB document is a Python dict in which every projected key may
      be missing; it is a record of optional fields, and [doc.get(k, d)] is
      [default d (k doc)].  Text values are strings and [categories] is a
      list of strings, as the schema of the collection has them.
    - Python's [str] is [string]; [startswith] is [String.prefix], [s[:4]]
      is [String.substring 0 4 s], [sep.join] is [String.concat], and the
      order of [sorted] on strings is the lexicographic order
      [String.leb].
    - An exception ([IndexError], [KeyError], [ValueError]) is [None] of an
      [option].
    - Streamlit runs the script from its first line at every interaction:
      the module-level lines 25-42 precede the page code in every run, and
      the [script_] definitions compose the two.  The TF-IDF matrix of
      lines 41-42 is never read; of [fit_transform] the run keeps whether
      it raises. *)

From Stdlib Require Import QArith Lqa.
From stdpp Require Import base option list sorting gmap strings pretty.

(** ** Documents *)

Record Doc := {
  _id : string;
  title : option string;
  abstract : option string;
  categories : option (list string);
  update_date : option string;
  submitter : option string;
  comments : option string;
  journal_ref : option string;
  authors : option string;
  link : option string
}.

(** Python compares dicts by value: [doc in filtered_documents] is
    decidable equality of records. *)
Global Instance Doc_eq_dec : EqDecision Doc.
Proof. solve_decision. Defined.

(** Truthiness of an optional string: [if doc.get(k)] holds when the key
    is present with a non-empty value. *)
Definition truthy (o : option string) : bool :=
  match o with
  | Some s => negb (String.eqb s "")
  | None => false
  end.

(** [enumerate(l)]: every element with its position, from [start]. *)
Fixpoint enumerate_from {A} (start : nat) (l : list A) : list (nat * A) :=
  match l with
  | [] => []
  | x :: l' => (start, x) :: enumerate_from (S start) l'
  end.

Definition enumerate {A} (l : list A) : list (nat * A) := enumerate_from 0 l.

(** ** Corpus builder (lines 28-39) *)

(** [sorted(set(xs))]: the set forgets order and multiplicity, [sorted]
    lists its elements in ascending order of [str_le]. *)
Definition str_le (a b : string) : Prop := String.leb a b = true.

Global Instance str_le_dec : RelDecision str_le.
Proof. intros a b. unfold str_le. apply _. Defined.

Definition sorted (s : gset string) : list string :=
  merge_sort str_le (elements s).

Definition set (xs : list string) : gset string := list_to_set xs.

(** Line 28. *)
Definition submitters (documents : list Doc) : list string :=
  sorted (set (List.map (λ doc, default "Unknown" (submitter doc))
                 (List.filter (λ doc, truthy (submitter doc)) documents))).

(** Line 29, the module-level list [categories]; the name is taken by
    the documents' field. *)
Definition categories_of (documents : list Doc) : list string :=
  sorted (set (List.flat_map (λ doc, default [] (categories doc)) documents)).

(** Line 30. *)
Definition update_dates (documents : list Doc) : list string :=
  sorted (set (List.map (λ doc, String.substring 0 4 (default "Unknown" (update_date doc)))
                 (List.filter (λ doc, truthy (update_date doc)) documents))).

(** Line 37: the f-string of one document. *)
Definition text_of (doc : Doc) : string :=
  default "" (title doc) +:+ " " +:+ default "" (abstract doc) +:+ " "
    +:+ String.concat " " (default [] (categories doc)).

(** Lines 33-39: the loop appends to the two module-level lists. *)
Definition corpus_step (st : list string * list string) (doc : Doc)
  : list string * list string :=
  (st.1 ++ [text_of doc], st.2 ++ [_id doc]).

Definition build_corpus (documents : list Doc) : list string * list string :=
  fold_left corpus_step documents ([], []).

Definition corpus (documents : list Doc) : list string := (build_corpus documents).1.
Definition ids (documents : list Doc) : list string := (build_corpus documents).2.

(** ** The TF-IDF step (lines 41-42) *)

(** [TfidfVectorizer] belongs to scikit-learn, which the repository
    imports and does not contain.  Its analyzer, which cuts one text into
    terms and drops the English stop words, is a parameter. *)
Definition Analyzer : Type := string → list string.

(** Line 42: [fit_transform] gathers the terms of all the texts and
    raises [ValueError] (empty vocabulary) when there is none, as on an
    empty corpus or on texts made of stop words only.  The matrix is never
    read; the terms found stand for it. *)
Definition fit_transform (analyze : Analyzer) (corpus : list string)
  : option (list string) :=
  match List.flat_map analyze corpus with
  | [] => None
  | terms => Some terms
  end.

(** ** Filter engine (lines 69-80) *)

(** The three sidebar selections. *)
Record PredicateSet := {
  selected_update_date : string;
  selected_submitter : string;
  selected_category : string
}.

(** The condition of the comprehension of lines 77-79. *)
Definition doc_passes (ps : PredicateSet) (doc : Doc) : bool :=
  (String.eqb (selected_update_date ps) "All"
     || String.prefix (selected_update_date ps) (default "" (update_date doc)))
  && (String.eqb (selected_submitter ps) "All"
     || bool_decide (submitter doc = Some (selected_submitter ps)))
  && (String.eqb (selected_category ps) "All"
     || bool_decide (selected_category ps ∈ default [] (categories doc))).

Definition filtered_documents (ps : PredicateSet) (documents : list Doc) : list Doc :=
  List.filter (doc_passes ps) documents.

(** Line 86: [corpus[i]] for the positions whose document occurs in the
    filtered list; indexing past the end of [corpus] raises. *)
Definition corpus_filtered (corpus : list string) (documents filtered : list Doc)
  : option (list string) :=
  mapM (λ '(i, _), corpus !! i)
       (List.filter (λ '(_, doc), bool_decide (doc ∈ filtered)) (enumerate documents)).

(** ** Text ranker (lines 44-47) *)

(** The scorer is an argument of [process.extract]; the script passes
    [fuzz.partial_ratio].  Its value is a finite float, read here as the
    rational it denotes. *)
Definition Scorer : Type := string → string → Q.

(** One entry of the result of [process.extract]: [(choice, score, index)]. *)
Definition Match : Type := string * Q * nat.

Definition match_score (m : Match) : Q := m.1.2.
Definition match_index (m : Match) : nat := m.2.

(** Modelled from the spec: the order in which [process.extract], a
    function of the rapidfuzz library that the repository imports and does
    not contain, lists two entries.  By section 4.3 the better score comes
    first, and the earlier candidate first among equal scores. *)
Definition extract_leb (a b : Match) : bool :=
  match Qcompare (match_score a) (match_score b) with
  | Gt => true
  | Lt => false
  | Eq => Nat.leb (match_index a) (match_index b)
  end.

Definition extract_le (a b : Match) : Prop := extract_leb a b = true.

Global Instance extract_le_dec : RelDecision extract_le.
Proof. intros a b. unfold extract_le. apply _. Defined.

(** Modelled from the spec: the scoring pass of [process.extract], every
    choice with its score and its position in [choices]. *)
Definition extract_iter (scorer : Scorer) (query : string) (choices : list string)
  : list Match :=
  List.map (λ '(i, choice), (choice, scorer query choice, i)) (enumerate choices).

(** Modelled from the spec: [process.extract] itself.  Section 4.3 fixes
    what it returns: every candidate is scored, the [limit] highest-scoring
    ones are returned in descending order of score, and candidates of equal
    score keep their original order. *)
Definition extract (scorer : Scorer) (query : string) (choices : list string)
    (limit : nat) : list Match :=
  take limit (merge_sort extract_le (extract_iter scorer query choices)).

(** Lines 44-47; [documents[result[2]]] raises past the end of
    [documents]. *)
Definition recommend_documents (scorer : Scorer) (query : string)
    (corpus : list string) (documents : list Doc) (limit : nat)
  : option (list Doc) :=
  let results := extract scorer query corpus limit in
  mapM (λ result, documents !! match_index result) results.

(** The positions [result[2]] of the results, in result order. *)
Definition ranked_indices (scorer : Scorer) (query : string)
    (corpus : list string) (limit : nat) : list nat :=
  match_index <$> extract scorer query corpus limit.

(** All the candidates' positions in the order of [process.extract],
    before the cut at [limit]. *)
Definition full_ranking (scorer : Scorer) (query : string) (choices : list string)
  : list nat :=
  match_index <$> merge_sort extract_le (extract_iter scorer query choices).

(** ** Query orchestration on the Home page (lines 75-87) *)

(** The ranker as the page sees it: query, candidate texts, candidate
    documents and limit to a list of documents, or an exception. *)
Definition Ranker : Type :=
  string → list string → list Doc → nat → option (list Doc).

(** Lines 75-87 alone, the code of the Home page that a run enters after
    the module level: no recommendation when the query is empty (the guard
    of line 85), the output of the ranker [rank] on the filtered candidates
    otherwise.  A whole run is [script_search_with]. *)
Definition search_with (rank : Ranker) (documents : list Doc) (ps : PredicateSet)
    (query : string) (limit : nat) : option (list Doc) :=
  let filtered := filtered_documents ps documents in
  if String.eqb query "" then Some []
  else
    texts ← corpus_filtered (corpus documents) documents filtered;
    rank query texts filtered limit.

(** Lines 75-87, where the ranker is [recommend_documents]. *)
Definition search (scorer : Scorer) : list Doc → PredicateSet → string → nat
    → option (list Doc) :=
  search_with (recommend_documents scorer).

(** Line 87 asks for fifty recommendations. *)
Definition home_recommendations (scorer : Scorer) (documents : list Doc)
    (ps : PredicateSet) (query : string) : option (list Doc) :=
  search scorer documents ps query 50.

(** One run of the script up to its recommendations: the module level
    with the TF-IDF step of lines 41-42, which may raise, then lines
    75-87. *)
Definition script_search_with (analyze : Analyzer) (rank : Ranker)
    (documents : list Doc) (ps : PredicateSet) (query : string) (limit : nat)
  : option (list Doc) :=
  _ ← fit_transform analyze (corpus documents);
  search_with rank documents ps query limit.

Definition script_search (analyze : Analyzer) (scorer : Scorer)
  : list Doc → PredicateSet → string → nat → option (list Doc) :=
  script_search_with analyze (recommend_documents scorer).

(** ** Session state and the saved courses (lines 50-62, 97-99) *)

Inductive Page := Home | SelectedCourses.

Record SessionState := {
  page : Page;
  selected_courses : list Doc
}.

(** Lines 50-54: the state of a fresh session. *)
Definition init_session : SessionState :=
  {| page := Home; selected_courses := [] |}.

(** Line 98: the Save button appends the recommendation. *)
Definition save_course (st : SessionState) (rec : Doc) : SessionState :=
  {| page := page st; selected_courses := selected_courses st ++ [rec] |}.

Definition go_to_selected_courses (st : SessionState) : SessionState :=
  {| page := SelectedCourses; selected_courses := selected_courses st |}.

Definition go_home (st : SessionState) : SessionState :=
  {| page := Home; selected_courses := selected_courses st |}.

(** What one run of the script lists: the recommendations on the Home
    page, the saved courses on the other page (lines 65-123). *)
Inductive View :=
  | Recommendations (recs : list Doc)
  | SavedCourses (courses : list Doc).

(** One run of the script: the module level with the TF-IDF step of lines
    41-42, then the page of the session. *)
Definition render (analyze : Analyzer) (scorer : Scorer) (documents : list Doc)
    (st : SessionState) (ps : PredicateSet) (query : string) : option View :=
  _ ← fit_transform analyze (corpus documents);
  match page st with
  | Home => Recommendations <$> home_recommendations scorer documents ps query
  | SelectedCourses => Some (SavedCourses (selected_courses st))
  end.

(** ** Sidebar (lines 69-71) *)

(** The options of the three selectboxes: "All", then the values found
    in the documents. *)
Definition update_date_options (documents : list Doc) : list string :=
  "All" :: update_dates documents.

Definition submitter_options (documents : list Doc) : list string :=
  "All" :: submitters documents.

Definition category_options (documents : list Doc) : list string :=
  "All" :: categories_of documents.

(** A selectbox returns one of its options: the selections the sidebar
    can produce for [documents]. *)
Definition offered (documents : list Doc) (ps : PredicateSet) : Prop :=
  selected_update_date ps ∈ update_date_options documents
  ∧ selected_submitter ps ∈ submitter_options documents
  ∧ selected_category ps ∈ category_options documents.

(** Selections that constrain one field only. *)
Definition only_update_date (year : string) : PredicateSet :=
  {| selected_update_date := year; selected_submitter := "All";
     selected_category := "All" |}.

Definition only_submitter (name : string) : PredicateSet :=
  {| selected_update_date := "All"; selected_submitter := name;
     selected_category := "All" |}.

Definition only_category (cat : string) : PredicateSet :=
  {| selected_update_date := "All"; selected_submitter := "All";
     selected_category := cat |}.

(** ** What the pages write (lines 89-99 and 108-123) *)

(** One expander of the Home page: its label, the four lines written in
    it, and the label and key of its Save button. *)
Record Expander := {
  exp_label : string;
  exp_lines : list string;
  exp_button : string;
  exp_key : string
}.

(** Lines 92-97 for the recommendation at position [i]; [rec['title']]
    and [rec['abstract']] raise [KeyError] on a document without the
    key. *)
Definition show_recommendation (i : nat) (rec : Doc) : option Expander :=
  t ← title rec;
  a ← abstract rec;
  Some {| exp_label := pretty (i + 1) +:+ ". " +:+ t;
          exp_lines :=
            [ "**Submitter:** " +:+ default "Unknown" (submitter rec);
              "**Update Year:** "
                +:+ String.substring 0 4 (default "Unknown" (update_date rec));
              "**Categories:** " +:+ String.concat ", " (default [] (categories rec));
              "**Abstract:** " +:+ a ];
          exp_button := "Save Course " +:+ pretty (i + 1);
          exp_key := "save_" +:+ pretty i |}.

(** Line 89. *)
Definition home_header (query : string) : string :=
  "Top recommendations for '" +:+ query +:+ "':".

(** Lines 91-99: one expander per recommendation, in order. *)
Definition home_expanders_of (recs : list Doc) : option (list Expander) :=
  mapM (λ '(i, rec), show_recommendation i rec) (enumerate recs).

Definition home_expanders (scorer : Scorer) (documents : list Doc)
    (ps : PredicateSet) (query : string) : option (list Expander) :=
  recs ← home_recommendations scorer documents ps query;
  home_expanders_of recs.

(** One run of the script on the Home page up to its expanders: lines
    25-42, then lines 75-99. *)
Definition script_home_expanders (analyze : Analyzer) (scorer : Scorer)
    (documents : list Doc) (ps : PredicateSet) (query : string)
  : option (list Expander) :=
  _ ← fit_transform analyze (corpus documents);
  home_expanders scorer documents ps query.

(** Lines 110-116 for one saved course; [course.get('link')] is [None]
    without the key, which the f-string prints as [None]. *)
Definition show_course (course : Doc) : option (list string) :=
  t ← title course;
  a ← abstract course;
  Some [ "### " +:+ t;
         "**Submitter:** " +:+ default "Unknown" (submitter course);
         "**Update Year:** "
           +:+ String.substring 0 4 (default "Unknown" (update_date course));
         "**Categories:** " +:+ String.concat ", " (default [] (categories course));
         "**Abstract:** " +:+ a;
         "[Link to Paper](" +:+ default "None" (link course) +:+ ")";
         "---" ].

(** A document both pages can display: it has a title and an abstract. *)
Definition displayable (doc : Doc) : Prop :=
  is_Some (title doc) ∧ is_Some (abstract doc).

(** Lines 108-123: the lines of the Saved Courses page. *)
Definition saved_courses_page (st : SessionState) : option (list string) :=
  match selected_courses st with
  | [] => Some ["No courses selected yet."]
  | courses => mjoin <$> mapM show_course courses
  end.

(** ** One interaction (lines 65-123) *)

(** The buttons of the two pages. *)
Inductive Event :=
  | ClickSave (i : nat)
  | ClickViewSelected
  | ClickBackHome.

(** The values of the sidebar and of the query box when a button is
    clicked. *)
Record Widgets := {
  w_filters : PredicateSet;
  w_query : string
}.

(** The session after the run of the script that a click triggers.  A
    button acts in that run when the run reaches it: the Save button of
    position [i] after the expanders up to [i] were written (line 97), the
    View button after all of them (line 102) and only under a query (line
    85), the Back button after the saved courses were written (lines 118
    and 122).  A run that raises before the button, and a click on a
    button the page does not have, leave the session as it is. *)
Definition step (scorer : Scorer) (documents : list Doc) (st : SessionState)
    (w : Widgets) (ev : Event) : SessionState :=
  match page st with
  | Home =>
      if String.eqb (w_query w) "" then st
      else
        match home_recommendations scorer documents (w_filters w) (w_query w) with
        | None => st
        | Some recs =>
            match ev with
            | ClickSave i =>
                match home_expanders_of (take (S i) recs), recs !! i with
                | Some _, Some rec => save_course st rec
                | _, _ => st
                end
            | ClickViewSelected =>
                match home_expanders_of recs with
                | Some _ => go_to_selected_courses st
                | None => st
                end
            | ClickBackHome => st
            end
        end
  | SelectedCourses =>
      match ev with
      | ClickBackHome =>
          match saved_courses_page st with
          | Some _ => go_home st
          | None => st
          end
      | _ => st
      end
  end.

(** A session: the clicks one after another. *)
Definition run (scorer : Scorer) (documents : list Doc) (st : SessionState)
    (clicks : list (Widgets * Event)) : SessionState :=
  fold_left (λ st '(w, ev), step scorer documents st w ev) clicks st.

(** ** Sample data *)

Definition mk_doc (i t a : string) (cats : list string) (s d : string) : Doc :=
  {| _id := i; title := Some t; abstract := Some a; categories := Some cats;
     update_date := Some d; submitter := Some s; comments := None;
     journal_ref := None; authors := None; link := None |}.

Definition doc_quantum : Doc :=
  mk_doc "1" "Quantum Computing Basics" "intro to qubits" ["quant-ph"] "alice" "2020-01-05".

Definition doc_classical : Doc :=
  mk_doc "2" "Classical Mechanics" "Newtonian dynamics" ["physics"; "math-ph"] "bob" "2019-11-30".

(** A document that carries nothing but its identifier. *)
Definition doc_bare : Doc :=
  {| _id := "3"; title := None; abstract := None; categories := None;
     update_date := None; submitter := None; comments := None;
     journal_ref := None; authors := None; link := None |}.

Definition all_filters : PredicateSet :=
  {| selected_update_date := "All"; selected_submitter := "All";
     selected_category := "All" |}.

(** A year filter whose value is the empty string. *)
Definition empty_year : PredicateSet :=
  {| selected_update_date := ""; selected_submitter := "All";
     selected_category := "All" |}.

Definition year_2019 : PredicateSet :=
  {| selected_update_date := "2019"; selected_submitter := "All";
     selected_category := "All" |}.

(** A document with a title and nothing to display beside it. *)
Definition doc_untitled_abstract : Doc :=
  {| _id := "4"; title := Some "Notes"; abstract := None; categories := None;
     update_date := None; submitter := None; comments := None;
     journal_ref := None; authors := None; link := None |}.

(** A document whose text the sample analyzer finds no term in. *)
Definition doc_stop_words : Doc :=
  mk_doc "5" "The" "of and" [] "dan" "2021-03-01".

(** An analyzer for examples: a text is one term, unless it is the text
    of [doc_stop_words]. *)
Definition sample_analyzer : Analyzer :=
  λ text, if String.eqb text "The of and " then [] else [text].

(** A ranker that raises on every call. *)
Definition failing_ranker : Ranker := λ _ _ _ _, None.

(** A scorer for examples: 100 when the query opens the text, 40 otherwise. *)
Definition prefix_scorer : Scorer :=
  λ query text, if String.prefix query text then 100%Q else 40%Q.

(** ** The contracts in the specification's words *)

(** [text] starts with [pre]. *)
Definition starts_with (text pre : string) : Prop := ∃ rest, text = pre +:+ rest.

(** Section 4.2 of the specification: a document passes when every
    constraint is "All" or is met by the field, a field the document does
    not have meeting no constraint. *)
Definition passes_spec (ps : PredicateSet) (doc : Doc) : Prop :=
  (selected_update_date ps = "All"
     ∨ ∃ date, update_date doc = Some date ∧ starts_with date (selected_update_date ps))
  ∧ (selected_submitter ps = "All" ∨ submitter doc = Some (selected_submitter ps))
  ∧ (selected_category ps = "All"
     ∨ ∃ cats, categories doc = Some cats ∧ selected_category ps ∈ cats).

(** Section 4.3: candidate [i] is listed before candidate [j] when its
    score is higher, or equal with [i] the earlier candidate. *)
Definition ranks_before (scorer : Scorer) (query : string) (texts : list string)
    (i j : nat) : Prop :=
  ∃ ti tj, texts !! i = Some ti ∧ texts !! j = Some tj
    ∧ (Qlt (scorer query tj) (scorer query ti)
       ∨ (Qeq (scorer query ti) (scorer query tj) ∧ i < j)).

(** * Properties *)

(** ** Strings *)

Section strings.
Implicit Types s t u : string.

(** [startswith] in words: the text is the prefix followed by a rest. *)
Lemma prefix_true_iff s t :
  String.prefix s t = true ↔ ∃ rest, t = s +:+ rest.
Proof.
  revert t. induction s as [|c s IH]; intros t.
  - destruct t; simpl; split; eauto.
  - destruct t as [|c' t]; simpl.
    + split; [done | intros [rest Hrest]; discriminate].
    + destruct (Ascii.ascii_dec c c') as [->|Hne].
      * rewrite IH. split; intros [rest Hrest]; exists rest.
        -- by rewrite Hrest.
        -- by injection Hrest.
      * split; [done | intros [rest Hrest]; by injection Hrest].
Qed.

Lemma prefix_of_empty s : String.prefix s "" = true ↔ s = "".
Proof. destruct s; simpl; split; congruence. Qed.

Lemma eqb_All s : String.eqb s "All" = true ↔ s = "All".
Proof. apply String.eqb_eq. Qed.
End strings.

(** ** The corpus follows the documents *)

Section corpus_builder.
Implicit Types (documents : list Doc) (doc : Doc).

Lemma build_corpus_from documents texts keys :
  fold_left corpus_step documents (texts, keys)
  = (texts ++ (text_of <$> documents), keys ++ (_id <$> documents)).
Proof.
  revert texts keys.
  induction documents as [|doc documents IH]; intros texts keys.
  - simpl. by rewrite !app_nil_r.
  - cbn [fold_left]. unfold corpus_step at 2. rewrite IH.
    simpl. by rewrite <- !app_assoc.
Qed.

Lemma corpus_fmap documents : corpus documents = text_of <$> documents.
Proof. unfold corpus, build_corpus. by rewrite build_corpus_from. Qed.

Lemma ids_fmap documents : ids documents = _id <$> documents.
Proof. unfold ids, build_corpus. by rewrite build_corpus_from. Qed.

Lemma corpus_length documents : length (corpus documents) = length documents.
Proof. by rewrite corpus_fmap, length_fmap. Qed.
End corpus_builder.

(** ** The filter *)

Section filter_engine.
Implicit Types (documents : list Doc) (doc : Doc) (ps : PredicateSet).

Lemma filter_sublist {A} (f : A → bool) (l : list A) :
  List.filter f l `sublist_of` l.
Proof.
  induction l as [|x l IH]; simpl; [constructor |].
  destruct (f x); by constructor.
Qed.

Lemma elem_of_filtered ps documents doc :
  doc ∈ filtered_documents ps documents ↔ doc ∈ documents ∧ doc_passes ps doc = true.
Proof.
  unfold filtered_documents. rewrite !list_elem_of_In. apply filter_In.
Qed.

Lemma doc_passes_all doc : doc_passes all_filters doc = true.
Proof. reflexivity. Qed.

(** The three conjuncts of the condition, one at a time. *)
Lemma doc_passes_true ps doc :
  doc_passes ps doc = true ↔
    (selected_update_date ps = "All"
       ∨ String.prefix (selected_update_date ps) (default "" (update_date doc)) = true)
    ∧ (selected_submitter ps = "All" ∨ submitter doc = Some (selected_submitter ps))
    ∧ (selected_category ps = "All"
       ∨ selected_category ps ∈ default [] (categories doc)).
Proof.
  unfold doc_passes.
  rewrite !andb_true_iff, !orb_true_iff, !eqb_All, !bool_decide_eq_true.
  tauto.
Qed.

(** The defaults of [doc.get] in the year and category tests. *)
Lemma year_constraint_iff (year : string) doc :
  String.prefix year (default "" (update_date doc)) = true ↔
    (∃ date, update_date doc = Some date ∧ starts_with date year)
    ∨ (update_date doc = None ∧ year = "").
Proof.
  unfold starts_with. destruct (update_date doc) as [date|]; cbn [default from_option id].
  - rewrite prefix_true_iff. split.
    + intros Hrest. left. by exists date.
    + intros [(date' & Heq & Hrest) | [Heq _]]; [| done].
      by inversion Heq; subst.
  - rewrite prefix_of_empty. split.
    + intros ->. by right.
    + intros [(date' & Heq & _) | [_ Hy]]; [done | exact Hy].
Qed.

Lemma category_constraint_iff (cat : string) doc :
  cat ∈ default [] (categories doc) ↔
    ∃ cats, categories doc = Some cats ∧ cat ∈ cats.
Proof.
  destruct (categories doc) as [cats|]; cbn [default from_option id].
  - split; [intros Hin; by exists cats |].
    intros (cats' & Heq & Hin). by inversion Heq; subst.
  - rewrite elem_of_nil. split; [done | intros (cats' & Heq & _); done].
Qed.

(** Membership in the filtered list is the condition itself, so the
    test [doc in filtered_documents] of line 86 selects by value. *)
Lemma filtered_texts_from ps documents (all : list Doc) (before : list string) :
  (∀ doc, doc ∈ documents → doc ∈ all) →
  mapM (λ '(i, _), (before ++ (text_of <$> documents)) !! i)
       (List.filter (λ '(_, doc), bool_decide (doc ∈ filtered_documents ps all))
                    (enumerate_from (length before) documents))
  = Some (text_of <$> filtered_documents ps documents).
Proof.
  revert before.
  induction documents as [|doc documents IH]; intros before Hall; [done |].
  assert (Hstep :
    mapM (λ '(i, _), (before ++ text_of doc :: (text_of <$> documents)) !! i)
         (List.filter (λ '(_, d), bool_decide (d ∈ filtered_documents ps all))
                      (enumerate_from (S (length before)) documents))
    = Some (text_of <$> filtered_documents ps documents)).
  { specialize (IH (before ++ [text_of doc])).
    rewrite length_app, Nat.add_1_r, <- app_assoc in IH.
    apply IH. intros d Hd. apply Hall. by right. }
  simpl. unfold filtered_documents at 2. simpl.
  destruct (doc_passes ps doc) eqn:Hpass.
  - rewrite bool_decide_eq_true_2
      by (apply elem_of_filtered; split; [apply Hall; left | done]).
    simpl. fold (filtered_documents ps documents).
    rewrite (list_lookup_middle before _ _ (length before)) by done.
    simpl. unfold fmap in Hstep. by rewrite Hstep.
  - rewrite bool_decide_eq_false_2; [exact Hstep |].
    rewrite elem_of_filtered. intros [_ Hp]. congruence.
Qed.

Lemma corpus_filtered_fmap ps documents :
  corpus_filtered (corpus documents) documents (filtered_documents ps documents)
  = Some (text_of <$> filtered_documents ps documents).
Proof.
  unfold corpus_filtered, enumerate. rewrite corpus_fmap.
  exact (filtered_texts_from ps documents documents [] (λ _ H, H)).
Qed.
End filter_engine.

(** ** Claims on the corpus builder and the filter *)

(** C7: the i-th searchable text is the title, a space, the abstract, a
    space and the space-joined categories of the i-th document, in that
    order; a field the document lacks contributes the empty string (the
    empty join for the categories), and the corpus has one text per
    document. *)
Theorem corpus_entry (documents : list Doc) :
  length (corpus documents) = length documents
  ∧ (∀ i, corpus documents !! i
          = (λ doc, default "" (title doc) +:+ " " +:+ default "" (abstract doc)
                      +:+ " " +:+ String.concat " " (default [] (categories doc)))
            <$> documents !! i)
  ∧ (∀ doc, title doc = None → abstract doc = None → categories doc = None →
            text_of doc = "  ").
Proof.
  split; [apply corpus_length |]. split.
  - intros i. by rewrite corpus_fmap, list_lookup_fmap.
  - intros doc Ht Ha Hc. unfold text_of. by rewrite Ht, Ha, Hc.
Qed.

Lemma corpus_entry_witness :
  text_of doc_bare = "  "
  ∧ corpus [doc_quantum; doc_bare] !! 0
    = Some "Quantum Computing Basics intro to qubits quant-ph".
Proof.
  pose proof (corpus_entry [doc_quantum; doc_bare]) as (_ & Hnth & Hbare).
  split.
  - exact (Hbare doc_bare eq_refl eq_refl eq_refl).
  - rewrite (Hnth 0). reflexivity.
Defined.

(** C1: the texts handed to the ranker are, position by position, the
    searchable texts of the filtered documents. *)
Theorem corpus_filtered_aligned (documents : list Doc) (ps : PredicateSet) :
  ∃ texts,
    corpus_filtered (corpus documents) documents (filtered_documents ps documents)
      = Some texts
    ∧ length texts = length (filtered_documents ps documents)
    ∧ ∀ j, texts !! j = text_of <$> filtered_documents ps documents !! j.
Proof.
  exists (text_of <$> filtered_documents ps documents).
  split; [apply corpus_filtered_fmap |].
  split; [apply length_fmap |].
  intros j. apply list_lookup_fmap.
Qed.

(** C5: with the three selections at "All" the filter returns its input
    unchanged, and for any selections its output is a subsequence of the
    input, in the input's order. *)
Theorem filter_all_identity (documents : list Doc) :
  filtered_documents all_filters documents = documents
  ∧ ∀ ps, filtered_documents ps documents `sublist_of` documents.
Proof.
  split.
  - unfold filtered_documents.
    induction documents as [|doc documents IH]; [done |].
    cbn [List.filter]. rewrite doc_passes_all. by f_equal.
  - intros ps. apply filter_sublist.
Qed.

(** Outside the selections of the sidebar: the empty string taken as a
    year is met by every document, one without [update_date] included,
    which the filter reads as the empty string. *)
Lemma filter_empty_year_keeps_undated :
  selected_update_date empty_year ≠ "All"
  ∧ update_date doc_bare = None
  ∧ doc_bare ∈ filtered_documents empty_year [doc_bare]
  ∧ ¬ passes_spec empty_year doc_bare.
Proof.
  split; [done |]. split; [done |]. split.
  - vm_compute. left.
  - intros [[Hall | (date & Hdate & _)] _]; discriminate.
Qed.

(** The filter on any selection, offered by the sidebar or not: a
    document is retained exactly when it meets the three constraints, a
    missing [update_date] meeting the year constraint only when the
    selected year is the empty string. *)
Theorem filter_retains_iff (ps : PredicateSet) (documents : list Doc) (doc : Doc) :
  (doc ∈ filtered_documents ps documents ↔
     doc ∈ documents
     ∧ (selected_update_date ps = "All"
        ∨ (∃ date, update_date doc = Some date
                   ∧ starts_with date (selected_update_date ps))
        ∨ (update_date doc = None ∧ selected_update_date ps = ""))
     ∧ (selected_submitter ps = "All" ∨ submitter doc = Some (selected_submitter ps))
     ∧ (selected_category ps = "All"
        ∨ ∃ cats, categories doc = Some cats ∧ selected_category ps ∈ cats))
  ∧ (selected_update_date ps ≠ "" →
     (doc ∈ filtered_documents ps documents ↔ doc ∈ documents ∧ passes_spec ps doc))
  ∧ (update_date doc = None → selected_update_date ps ≠ "All" →
     selected_update_date ps ≠ "" → doc ∉ filtered_documents ps documents)
  ∧ (submitter doc = None → selected_submitter ps ≠ "All" →
     doc ∉ filtered_documents ps documents)
  ∧ (categories doc = None ∨ categories doc = Some [] →
     selected_category ps ≠ "All" → doc ∉ filtered_documents ps documents).
Proof.
  assert (Hiff : doc ∈ filtered_documents ps documents ↔
     doc ∈ documents
     ∧ (selected_update_date ps = "All"
        ∨ (∃ date, update_date doc = Some date
                   ∧ starts_with date (selected_update_date ps))
        ∨ (update_date doc = None ∧ selected_update_date ps = ""))
     ∧ (selected_submitter ps = "All" ∨ submitter doc = Some (selected_submitter ps))
     ∧ (selected_category ps = "All"
        ∨ ∃ cats, categories doc = Some cats ∧ selected_category ps ∈ cats)).
  { rewrite elem_of_filtered, doc_passes_true,
      year_constraint_iff, category_constraint_iff. tauto. }
  split; [exact Hiff |]. rewrite Hiff.
  split; [| split; [| split]].
  - intros Hyear. unfold passes_spec. split.
    + intros (Hin & [Hy | [Hy | [_ Hy]]] & Hrest); [| | done];
        (split; [done |]); (split; [| done]); [by left | by right].
    + intros (Hin & [Hy | Hy] & Hrest);
        (split; [done |]); (split; [| done]); [by left | right; by left].
  - intros Hnone Hall Hempty (_ & [?|[(date & Hd & _)|[_ ?]]] & _); congruence.
  - intros Hnone Hall (_ & _ & [?|?] & _); congruence.
  - intros Hcats Hall (_ & _ & _ & [?|(cats & Hc & Hin)]); [done |].
    destruct Hcats as [Hn|Hn]; rewrite Hn in Hc; [done |].
    inversion Hc; subst. by apply elem_of_nil in Hin.
Qed.

Lemma filter_retains_iff_witness :
  doc_classical ∈ filtered_documents year_2019 [doc_quantum; doc_classical; doc_bare]
  ∧ doc_bare ∉ filtered_documents year_2019 [doc_quantum; doc_classical; doc_bare].
Proof.
  pose proof (filter_retains_iff year_2019 [doc_quantum; doc_classical; doc_bare]
                doc_classical) as (Hiff & _).
  pose proof (filter_retains_iff year_2019 [doc_quantum; doc_classical; doc_bare]
                doc_bare) as (_ & _ & Hdate & _).
  split.
  - apply Hiff. split; [right; left |].
    split; [right; left; exists "2019-11-30"; split;
              [reflexivity | by exists "-11-30"] |].
    split; by left.
  - apply Hdate; [reflexivity | discriminate | discriminate].
Defined.

(** ** The order of [sorted] *)

Section string_order.
Lemma ascii_compare_trans_le (a b c : Ascii.ascii) :
  Ascii.compare a b ≠ Gt → Ascii.compare b c ≠ Gt →
  Ascii.compare a c ≠ Gt
  ∧ (Ascii.compare a c = Eq → Ascii.compare a b = Eq ∧ Ascii.compare b c = Eq).
Proof.
  unfold Ascii.compare.
  destruct (N.compare_spec (Ascii.N_of_ascii a) (Ascii.N_of_ascii b)),
           (N.compare_spec (Ascii.N_of_ascii b) (Ascii.N_of_ascii c)),
           (N.compare_spec (Ascii.N_of_ascii a) (Ascii.N_of_ascii c));
    intros; split; try done; try lia.
Qed.

Lemma string_compare_trans_le (s1 s2 s3 : string) :
  String.compare s1 s2 ≠ Gt → String.compare s2 s3 ≠ Gt →
  String.compare s1 s3 ≠ Gt.
Proof.
  revert s2 s3.
  induction s1 as [|a s1 IH]; intros [|b s2] [|c s3]; simpl; try done.
  intros Hab Hbc.
  assert (Ascii.compare a b ≠ Gt) as Hab' by (by destruct (Ascii.compare a b)).
  assert (Ascii.compare b c ≠ Gt) as Hbc' by (by destruct (Ascii.compare b c)).
  destruct (ascii_compare_trans_le a b c Hab' Hbc') as [Hac Heq].
  destruct (Ascii.compare a c) eqn:Hcmp; try done.
  destruct (Heq eq_refl) as [Hab0 Hbc0].
  rewrite Hab0 in Hab. rewrite Hbc0 in Hbc. by apply (IH s2 s3).
Qed.

Global Instance str_le_total : Total str_le.
Proof. intros a b. apply String.leb_total. Qed.

Global Instance str_le_antisym : AntiSymm (=) str_le.
Proof. intros a b. apply String.leb_antisym. Qed.

Global Instance str_le_trans : Transitive str_le.
Proof.
  intros a b c. unfold str_le, String.leb. intros Hab Hbc.
  pose proof (string_compare_trans_le a b c) as Htrans.
  destruct (String.compare a b); try done;
    destruct (String.compare b c); try done;
    destruct (String.compare a c); try done;
    exfalso; by apply Htrans.
Qed.

(** [sorted(set(...))] lists the members of the set, once each, in
    ascending order. *)
Lemma sorted_spec (s : gset string) :
  (∀ x, x ∈ sorted s ↔ x ∈ s)
  ∧ NoDup (sorted s)
  ∧ StronglySorted str_le (sorted s).
Proof.
  unfold sorted. split; [| split].
  - intros x. by rewrite merge_sort_Permutation, elem_of_elements.
  - rewrite merge_sort_Permutation. apply NoDup_elements.
  - apply StronglySorted_merge_sort; apply _.
Qed.

Lemma truthy_true (o : option string) :
  truthy o = true ↔ ∃ s, o = Some s ∧ s ≠ "".
Proof.
  destruct o as [s|]; simpl.
  - rewrite negb_true_iff, String.eqb_neq. split.
    + intros Hne. by exists s.
    + intros (s' & Heq & Hne). by inversion Heq; subst.
  - split; [done | intros (s' & Heq & _); done].
Qed.
End string_order.

Section distinct_value_sets.
Implicit Types (documents : list Doc) (x : string).

Lemma elem_of_submitters documents x :
  x ∈ submitters documents ↔
    ∃ doc, doc ∈ documents ∧ submitter doc = Some x ∧ x ≠ "".
Proof.
  unfold submitters, set.
  rewrite (proj1 (sorted_spec _)), elem_of_list_to_set, list_elem_of_In, in_map_iff.
  split.
  - intros (doc & Hx & Hin). apply filter_In in Hin as [Hin Htruthy].
    apply truthy_true in Htruthy as (s & Hs & Hne).
    rewrite Hs in Hx. simpl in Hx. subst s.
    exists doc. by rewrite list_elem_of_In.
  - intros (doc & Hin & Hs & Hne). exists doc. split; [by rewrite Hs |].
    apply filter_In. split; [by apply list_elem_of_In |].
    apply truthy_true. by exists x.
Qed.

Lemma elem_of_categories_of documents x :
  x ∈ categories_of documents ↔
    ∃ doc cats, doc ∈ documents ∧ categories doc = Some cats ∧ x ∈ cats.
Proof.
  unfold categories_of, set.
  rewrite (proj1 (sorted_spec _)), elem_of_list_to_set, list_elem_of_In, in_flat_map.
  split.
  - intros (doc & Hin & Hx). exists doc.
    destruct (categories doc) as [cats|] eqn:Hcats; simpl in Hx; [| done].
    exists cats. by rewrite !list_elem_of_In.
  - intros (doc & cats & Hin & Hcats & Hx). exists doc.
    rewrite Hcats. simpl. by rewrite <- !list_elem_of_In.
Qed.

Lemma elem_of_update_dates documents x :
  x ∈ update_dates documents ↔
    ∃ doc date, doc ∈ documents ∧ update_date doc = Some date ∧ date ≠ ""
                ∧ x = String.substring 0 4 date.
Proof.
  unfold update_dates, set.
  rewrite (proj1 (sorted_spec _)), elem_of_list_to_set, list_elem_of_In, in_map_iff.
  split.
  - intros (doc & Hx & Hin). apply filter_In in Hin as [Hin Htruthy].
    apply truthy_true in Htruthy as (date & Hdate & Hne).
    rewrite Hdate in Hx. simpl in Hx.
    exists doc, date. by rewrite list_elem_of_In.
  - intros (doc & date & Hin & Hdate & Hne & ->). exists doc.
    split; [by rewrite Hdate |].
    apply filter_In. split; [by apply list_elem_of_In |].
    apply truthy_true. by exists date.
Qed.

(** The sidebar offers "All" and the years of [update_dates]: the empty
    string is never among them. *)
Lemma offered_years_nonempty documents x :
  x ∈ update_dates documents → x ≠ "".
Proof.
  intros (doc & date & _ & _ & Hne & ->)%elem_of_update_dates.
  by destruct date.
Qed.
End distinct_value_sets.

(** C8: the submitter list holds the submitters that are present and
    non-empty, the category list every entry of every document's
    categories, the year list the first four characters of every
    [update_date] that is present and non-empty; each of the three lists
    is free of duplicates and in ascending order. *)
Theorem distinct_values (documents : list Doc) :
  (∀ x, x ∈ submitters documents ↔
        ∃ doc, doc ∈ documents ∧ submitter doc = Some x ∧ x ≠ "")
  ∧ (∀ x, x ∈ categories_of documents ↔
        ∃ doc cats, doc ∈ documents ∧ categories doc = Some cats ∧ x ∈ cats)
  ∧ (∀ x, x ∈ update_dates documents ↔
        ∃ doc date, doc ∈ documents ∧ update_date doc = Some date ∧ date ≠ ""
                    ∧ x = String.substring 0 4 date)
  ∧ Forall (λ values, NoDup values ∧ StronglySorted str_le values)
      [submitters documents; categories_of documents; update_dates documents].
Proof.
  split; [intros x; apply elem_of_submitters |].
  split; [intros x; apply elem_of_categories_of |].
  split; [intros x; apply elem_of_update_dates |].
  unfold submitters, categories_of, update_dates.
  repeat constructor; apply sorted_spec.
Qed.

(** ** The ranker *)

Section extract_order.
Implicit Types a b c : Match.

Lemma extract_le_cases a b :
  extract_le a b ↔
    Qlt (match_score b) (match_score a)
    ∨ (Qeq (match_score a) (match_score b) ∧ match_index a ≤ match_index b).
Proof.
  unfold extract_le, extract_leb.
  destruct (Qcompare_spec (match_score a) (match_score b)) as [Heq|Hlt|Hgt].
  - rewrite Nat.leb_le. split; [by right |].
    intros [Hlt | [_ Hle]]; [lra | done].
  - split; [done |]. intros [Hgt | [Heq _]]; lra.
  - split; [by left | done].
Qed.

Global Instance extract_le_total : Total extract_le.
Proof.
  intros a b. rewrite !extract_le_cases.
  destruct (Qcompare_spec (match_score a) (match_score b)) as [Heq|Hlt|Hgt].
  - destruct (Nat.le_ge_cases (match_index a) (match_index b)).
    + left. by right.
    + right. right. split; [lra | done].
  - right. by left.
  - left. by left.
Qed.

Global Instance extract_le_trans : Transitive extract_le.
Proof.
  intros a b c. rewrite !extract_le_cases.
  intros [Hab | [Hab Habi]] [Hbc | [Hbc Hbci]].
  - left. lra.
  - left. lra.
  - left. lra.
  - right. split; [lra | lia].
Qed.
End extract_order.

Section ranker.
Context (scorer : Scorer) (query : string).
Implicit Types (choices : list string) (documents : list Doc) (limit : nat).

Lemma enumerate_from_lookup {A} (start : nat) (l : list A) (i : nat) :
  enumerate_from start l !! i = (λ x, (start + i, x)) <$> l !! i.
Proof.
  revert start i. induction l as [|x l IH]; intros start [|i]; simpl; try done.
  - by rewrite Nat.add_0_r.
  - rewrite IH. by rewrite Nat.add_succ_r.
Qed.

Lemma extract_iter_lookup choices i :
  extract_iter scorer query choices !! i
  = (λ text, (text, scorer query text, i)) <$> choices !! i.
Proof.
  unfold extract_iter, enumerate.
  change (List.map ?f ?l) with (f <$> l).
  rewrite list_lookup_fmap, enumerate_from_lookup.
  by destruct (choices !! i).
Qed.

Lemma extract_iter_length choices :
  length (extract_iter scorer query choices) = length choices.
Proof.
  apply Nat.le_antisymm.
  - apply Nat.nlt_ge. intros Hlt.
    destruct (lookup_lt_is_Some_2 _ _ Hlt) as [m Hm].
    rewrite extract_iter_lookup, lookup_ge_None_2 in Hm; done.
  - apply Nat.nlt_ge. intros Hlt.
    destruct (lookup_lt_is_Some_2 _ _ Hlt) as [t Ht].
    pose proof (extract_iter_lookup choices (length (extract_iter scorer query choices))) as Hl.
    rewrite Ht, lookup_ge_None_2 in Hl; done.
Qed.

Lemma extract_iter_indices choices :
  match_index <$> extract_iter scorer query choices = seq 0 (length choices).
Proof.
  apply list_eq. intros i.
  rewrite list_lookup_fmap, extract_iter_lookup.
  destruct (choices !! i) as [text|] eqn:Hi; simpl.
  - symmetry. apply lookup_seq. split; [done |]. by eapply lookup_lt_Some.
  - symmetry. apply lookup_seq_ge. by apply lookup_ge_None.
Qed.

(** An entry carries the text at its index and that text's score. *)
Lemma extract_iter_entry choices (m : Match) :
  m ∈ extract_iter scorer query choices →
  ∃ text, choices !! match_index m = Some text
          ∧ Qeq (match_score m) (scorer query text).
Proof.
  intros [i Hi]%list_elem_of_lookup_1.
  rewrite extract_iter_lookup in Hi.
  destruct (choices !! i) as [text|] eqn:Ht; [| done].
  inversion Hi; subst. exists text. split; [done | reflexivity].
Qed.

Lemma extract_le_ranks_before choices (m1 m2 : Match) :
  m1 ∈ extract_iter scorer query choices →
  m2 ∈ extract_iter scorer query choices →
  match_index m1 ≠ match_index m2 →
  extract_le m1 m2 →
  ranks_before scorer query choices (match_index m1) (match_index m2).
Proof.
  intros (t1 & Ht1 & Hs1)%extract_iter_entry (t2 & Ht2 & Hs2)%extract_iter_entry
         Hne Hle.
  exists t1, t2. split; [done |]. split; [done |].
  apply extract_le_cases in Hle as [Hlt | [Heq Hidx]].
  - left. lra.
  - right. split; [lra | lia].
Qed.

Lemma ranked_indices_take choices limit :
  ranked_indices scorer query choices limit = take limit (full_ranking scorer query choices).
Proof. unfold ranked_indices, extract, full_ranking. apply fmap_take. Qed.

Lemma full_ranking_perm choices :
  full_ranking scorer query choices ≡ₚ seq 0 (length choices).
Proof.
  unfold full_ranking.
  rewrite merge_sort_Permutation. by rewrite extract_iter_indices.
Qed.

Lemma sorted_entries_ranked choices (l : list Match) :
  (∀ m, m ∈ l → m ∈ extract_iter scorer query choices) →
  NoDup (match_index <$> l) →
  StronglySorted extract_le l →
  StronglySorted (ranks_before scorer query choices) (match_index <$> l).
Proof.
  induction l as [|m l IH]; intros Hin Hnodup Hsorted; [constructor |].
  rewrite fmap_cons in *.
  apply NoDup_cons in Hnodup as [Hfresh Hnodup].
  apply StronglySorted_cons in Hsorted as [Hhead Hsorted].
  apply StronglySorted_cons. split.
  - apply Forall_fmap, Forall_forall. intros m' Hm'.
    apply extract_le_ranks_before.
    + apply Hin. left.
    + apply Hin. by right.
    + intros Heq. apply Hfresh. rewrite Heq. by apply list_elem_of_fmap_2.
    + rewrite Forall_forall in Hhead. by apply Hhead.
  - apply IH; [| done | done]. intros m' Hm'. apply Hin. by right.
Qed.

Lemma full_ranking_sorted choices :
  StronglySorted (ranks_before scorer query choices) (full_ranking scorer query choices).
Proof.
  apply sorted_entries_ranked.
  - intros m. by rewrite merge_sort_Permutation.
  - fold (full_ranking scorer query choices). rewrite full_ranking_perm. apply NoDup_seq.
  - apply StronglySorted_merge_sort; apply _.
Qed.

(** No two candidates rank before each other, so the contract admits
    one order only. *)
Lemma ranks_before_asym choices i j :
  ranks_before scorer query choices i j →
  ranks_before scorer query choices j i → False.
Proof.
  intros (ti & tj & Hi & Hj & Hij) (tj' & ti' & Hj' & Hi' & Hji).
  rewrite Hi in Hi'. rewrite Hj in Hj'.
  inversion Hi'; inversion Hj'; subst.
  destruct Hij as [?|[? ?]], Hji as [?|[? ?]]; try lra; lia.
Qed.

Lemma full_ranking_unique choices (order : list nat) :
  order ≡ₚ seq 0 (length choices) →
  StronglySorted (ranks_before scorer query choices) order →
  order = full_ranking scorer query choices.
Proof.
  intros Hperm Hsorted.
  apply (StronglySorted_unique_strong (ranks_before scorer query choices)).
  - intros i j _ _ Hij Hji. by destruct (ranks_before_asym choices i j).
  - done.
  - apply full_ranking_sorted.
  - by rewrite Hperm, full_ranking_perm.
Qed.

Lemma mapM_fmap_compose {A B C} (f : B → option C) (g : A → B) (l : list A) :
  mapM (λ x, f (g x)) l = mapM f (g <$> l).
Proof. induction l as [|x l IH]; simpl; [done | by rewrite IH]. Qed.

Lemma recommend_documents_indices choices documents limit :
  recommend_documents scorer query choices documents limit
  = mapM (λ i, documents !! i) (ranked_indices scorer query choices limit).
Proof.
  unfold recommend_documents, ranked_indices.
  apply (mapM_fmap_compose (λ i, documents !! i) match_index).
Qed.

Lemma ranked_indices_bound choices limit i :
  i ∈ ranked_indices scorer query choices limit → i < length choices.
Proof.
  rewrite ranked_indices_take. intros (k & Hk & _)%elem_of_take.
  apply list_elem_of_lookup_2 in Hk.
  rewrite full_ranking_perm in Hk. apply elem_of_seq in Hk. lia.
Qed.

Lemma ranked_indices_length choices limit :
  length (ranked_indices scorer query choices limit) = min limit (length choices).
Proof.
  rewrite ranked_indices_take, length_take.
  by rewrite (Permutation_length (full_ranking_perm choices)), length_seq.
Qed.
Lemma ranked_indices_NoDup choices limit :
  NoDup (ranked_indices scorer query choices limit).
Proof.
  rewrite ranked_indices_take.
  apply (sublist_NoDup _ (full_ranking scorer query choices)); [| apply sublist_take].
  rewrite full_ranking_perm. apply NoDup_seq.
Qed.

Lemma ranked_indices_sorted choices limit :
  StronglySorted (ranks_before scorer query choices)
                 (ranked_indices scorer query choices limit).
Proof.
  rewrite ranked_indices_take.
  apply (StronglySorted_app_1_l _ _ (drop limit (full_ranking scorer query choices))).
  rewrite take_drop. apply full_ranking_sorted.
Qed.

(** A candidate that is cut off ranks after every candidate kept. *)
Lemma ranked_indices_ahead choices limit i j :
  i ∈ ranked_indices scorer query choices limit →
  j < length choices →
  j ∉ ranked_indices scorer query choices limit →
  ranks_before scorer query choices i j.
Proof.
  rewrite ranked_indices_take. intros Hi Hj Hout.
  pose proof (full_ranking_sorted choices) as Hsorted.
  rewrite <- (take_drop limit (full_ranking scorer query choices)) in Hsorted.
  apply (StronglySorted_app_1_elem_of _ _ _ _ _ Hsorted); [done |].
  assert (j ∈ full_ranking scorer query choices) as Hfull.
  { rewrite full_ranking_perm. apply elem_of_seq. lia. }
  rewrite <- (take_drop limit (full_ranking scorer query choices)) in Hfull.
  apply elem_of_app in Hfull as [Hin | Hin]; [done | exact Hin].
Qed.

(** No [IndexError] when there is a document for every text. *)
Lemma recommend_documents_defined choices documents limit :
  length choices = length documents →
  is_Some (recommend_documents scorer query choices documents limit).
Proof.
  intros Hlen. rewrite recommend_documents_indices.
  apply mapM_is_Some_2, Forall_forall.
  intros i Hi%ranked_indices_bound. apply lookup_lt_is_Some_2. lia.
Qed.

Lemma recommend_documents_lookup choices documents limit recs :
  recommend_documents scorer query choices documents limit = Some recs →
  Forall2 (λ i rec, documents !! i = Some rec)
          (ranked_indices scorer query choices limit) recs.
Proof.
  rewrite recommend_documents_indices. apply mapM_Some_1.
Qed.
End ranker.

(** ** Claims on the ranker *)

(** C3: on candidate texts and candidate documents of one length the
    ranker returns, without error, exactly min(limit, candidate count)
    documents; they are the documents at the ranked positions, which are
    distinct, in descending order of score with equal scores in candidate
    order, and ahead of every candidate left out; no candidates give no
    results. *)
Theorem recommend_documents_ranked (scorer : Scorer) (query : string)
    (texts : list string) (documents : list Doc) (limit : nat) :
  length texts = length documents →
  ∃ recs,
    recommend_documents scorer query texts documents limit = Some recs
    ∧ length recs = min limit (length texts)
    ∧ Forall2 (λ i rec, documents !! i = Some rec)
              (ranked_indices scorer query texts limit) recs
    ∧ NoDup (ranked_indices scorer query texts limit)
    ∧ StronglySorted (ranks_before scorer query texts)
                     (ranked_indices scorer query texts limit)
    ∧ (∀ i j, i ∈ ranked_indices scorer query texts limit →
              j < length texts →
              j ∉ ranked_indices scorer query texts limit →
              ranks_before scorer query texts i j)
    ∧ (texts = [] → recs = []).
Proof.
  intros Hlen.
  destruct (recommend_documents_defined scorer query texts documents limit Hlen)
    as [recs Hrecs].
  pose proof (recommend_documents_lookup scorer query _ _ _ _ Hrecs) as Hall.
  assert (Hcount : length recs = min limit (length texts)).
  { by rewrite <- (Forall2_length _ _ _ Hall), ranked_indices_length. }
  exists recs. split; [done |]. split; [done |]. split; [done |].
  split; [apply ranked_indices_NoDup |].
  split; [apply ranked_indices_sorted |].
  split; [apply ranked_indices_ahead |].
  intros ->. apply length_zero_iff_nil. rewrite Hcount. simpl. lia.
Qed.

Lemma recommend_documents_ranked_witness :
  ∃ recs,
    recommend_documents prefix_scorer "Classical"
      [text_of doc_quantum; text_of doc_classical; text_of doc_bare]
      [doc_quantum; doc_classical; doc_bare] 2 = Some recs
    ∧ length recs = 2.
Proof.
  destruct (recommend_documents_ranked prefix_scorer "Classical"
              [text_of doc_quantum; text_of doc_classical; text_of doc_bare]
              [doc_quantum; doc_classical; doc_bare] 2 eq_refl)
    as (recs & Hrecs & Hlen & _).
  exists recs. split; [exact Hrecs | exact Hlen].
Defined.

(** The ranker itself does not treat the empty query apart: called with
    it, it returns its candidates, so the empty list of [search] comes
    from the guard and not from a ranking. *)
Example recommend_documents_empty_query :
  recommend_documents prefix_scorer "" [text_of doc_quantum] [doc_quantum] 50
  = Some [doc_quantum].
Proof. reflexivity. Qed.

(** C9: saving appends the document at the end of the saved courses,
    whatever they hold already; saving one document twice in a fresh
    session leaves it there twice. *)
Theorem save_course_appends (st : SessionState) (rec : Doc) :
  selected_courses (save_course st rec) = selected_courses st ++ [rec]
  ∧ length (selected_courses (save_course st rec)) = S (length (selected_courses st))
  ∧ selected_courses (save_course (save_course init_session rec) rec) = [rec; rec]
  ∧ length (selected_courses (save_course (save_course init_session rec) rec)) = 2.
Proof.
  split; [done |]. split; [| done].
  simpl. rewrite length_app. simpl. lia.
Qed.

(** ** The search as a whole *)

Section orchestration.
Context (scorer : Scorer).
Implicit Types (documents : list Doc) (ps : PredicateSet) (query : string).

(** With a query, the search is the ranker on the filtered documents
    and their own texts. *)
Lemma search_unfold documents ps query limit :
  query ≠ "" →
  search scorer documents ps query limit
  = recommend_documents scorer query
      (text_of <$> filtered_documents ps documents)
      (filtered_documents ps documents) limit.
Proof.
  intros Hq%String.eqb_neq. unfold search, search_with.
  by rewrite Hq, corpus_filtered_fmap.
Qed.

Lemma search_total documents ps query limit :
  is_Some (search scorer documents ps query limit).
Proof.
  destruct (String.eqb_spec query "") as [->|Hq]; [by eexists |].
  rewrite search_unfold by done.
  apply recommend_documents_defined, length_fmap.
Qed.
End orchestration.

(** ** The script as a whole *)

Section script.
Context (analyze : Analyzer).
Implicit Types (documents : list Doc) (ps : PredicateSet) (query : string)
  (rank : Ranker).

(** No text, no term: on an empty corpus line 42 raises whatever the
    analyzer. *)
Lemma fit_transform_nil : fit_transform analyze [] = None.
Proof. reflexivity. Qed.

Lemma fit_transform_is_Some (texts : list string) :
  is_Some (fit_transform analyze texts) ↔ ∃ text, text ∈ texts ∧ analyze text ≠ [].
Proof.
  unfold fit_transform.
  destruct (List.flat_map analyze texts) as [|term terms] eqn:Hterms.
  - split; [by intros [? ?] |]. intros (text & Hin & Hne).
    destruct (analyze text) as [|term terms] eqn:Htext; [done |].
    assert (In term (List.flat_map analyze texts)) as Hterm.
    { apply in_flat_map. exists text. rewrite <- list_elem_of_In, Htext.
      split; [done | by left]. }
    by rewrite Hterms in Hterm.
  - split; [| by eexists]. intros _.
    assert (In term (List.flat_map analyze texts)) as Hterm
      by (rewrite Hterms; by left).
    apply in_flat_map in Hterm as (text & Hin & Hterm).
    exists text. split; [by apply list_elem_of_In |].
    intros Hnil. by rewrite Hnil in Hterm.
Qed.

(** A run that passes line 42 goes on with the page code. *)
Lemma script_search_with_passed rank documents ps query limit :
  is_Some (fit_transform analyze (corpus documents)) →
  script_search_with analyze rank documents ps query limit
  = search_with rank documents ps query limit.
Proof. intros [terms Hterms]. unfold script_search_with. by rewrite Hterms. Qed.

Lemma script_search_with_raised rank documents ps query limit :
  fit_transform analyze (corpus documents) = None →
  script_search_with analyze rank documents ps query limit = None.
Proof. intros Hnone. unfold script_search_with. by rewrite Hnone. Qed.

(** A run that returns recommendations has passed line 42. *)
Lemma script_search_Some scorer documents ps query limit recs :
  script_search analyze scorer documents ps query limit = Some recs →
  is_Some (fit_transform analyze (corpus documents))
  ∧ search scorer documents ps query limit = Some recs.
Proof.
  unfold script_search, script_search_with.
  destruct (fit_transform analyze (corpus documents)); [| done].
  intros Hrecs. split; [by eexists | exact Hrecs].
Qed.

Lemma script_search_is_Some scorer documents ps query limit :
  is_Some (script_search analyze scorer documents ps query limit)
  ↔ is_Some (fit_transform analyze (corpus documents)).
Proof.
  split.
  - intros [recs Hrecs]. by apply script_search_Some in Hrecs as [? _].
  - intros Hfit. unfold script_search.
    rewrite script_search_with_passed by done. apply search_total.
Qed.
End script.

(** C6: with an empty query a run that passes the TF-IDF step of line 42
    lists nothing and calls no ranker, whatever the documents, the filters
    and the limit; a run in which that step finds no term raises before
    the page is reached, and on the empty collection it finds none,
    whatever the analyzer. *)
Theorem search_empty_query (analyze : Analyzer) (documents : list Doc)
    (ps : PredicateSet) (limit : nat) :
  (is_Some (fit_transform analyze (corpus documents)) →
   ∀ rank, script_search_with analyze rank documents ps "" limit = Some [])
  ∧ (fit_transform analyze (corpus documents) = None →
     ∀ rank, script_search_with analyze rank documents ps "" limit = None)
  ∧ (∀ rank, script_search_with analyze rank [] ps "" limit = None)
  ∧ (is_Some (fit_transform analyze (corpus documents)) →
     ∀ scorer st, page st = Home →
       render analyze scorer documents st ps "" = Some (Recommendations [])).
Proof.
  split; [| split; [| split]].
  - intros Hfit rank. rewrite script_search_with_passed by done.
    unfold search_with. by rewrite String.eqb_refl.
  - intros Hnone rank. by apply script_search_with_raised.
  - intros rank. apply script_search_with_raised, fit_transform_nil.
  - intros [terms Hterms] scorer st Hpage. unfold render.
    by rewrite Hterms, Hpage.
Qed.

Lemma search_empty_query_witness :
  script_search sample_analyzer prefix_scorer [] all_filters "" 50 = None
  ∧ script_search sample_analyzer prefix_scorer [doc_stop_words] all_filters "" 50
    = None
  ∧ script_search sample_analyzer prefix_scorer [doc_quantum; doc_classical]
      year_2019 "" 50 = Some [].
Proof.
  split; [| split].
  - by apply (search_empty_query sample_analyzer [] all_filters 50).
  - by apply (search_empty_query sample_analyzer [doc_stop_words] all_filters 50).
  - apply (search_empty_query sample_analyzer [doc_quantum; doc_classical]
             year_2019 50).
    by eexists.
Defined.

(** C10: a run returns recommendations exactly when the TF-IDF step of
    line 42 finds a term, and then its result is fixed by the documents,
    the filters, the query and the limit: any order of the candidates that
    puts higher scores first and equal scores in candidate order yields,
    cut at the limit, the very list the run returns; what a run lists on
    the Home page does not depend on the session. *)
Theorem search_deterministic (analyze : Analyzer) (scorer : Scorer)
    (documents : list Doc) (ps : PredicateSet) (query : string) (limit : nat) :
  (is_Some (script_search analyze scorer documents ps query limit)
   ↔ is_Some (fit_transform analyze (corpus documents)))
  ∧ (∀ order,
       is_Some (fit_transform analyze (corpus documents)) →
       query ≠ "" →
       order ≡ₚ seq 0 (length (filtered_documents ps documents)) →
       StronglySorted
         (ranks_before scorer query (text_of <$> filtered_documents ps documents))
         order →
       script_search analyze scorer documents ps query limit
       = mapM (λ i, filtered_documents ps documents !! i) (take limit order))
  ∧ (∀ st1 st2,
       page st1 = Home → page st2 = Home →
       render analyze scorer documents st1 ps query
       = render analyze scorer documents st2 ps query).
Proof.
  split; [apply script_search_is_Some |]. split.
  - intros order Hfit Hq Hperm Hsorted. unfold script_search.
    rewrite script_search_with_passed by done.
    fold (search scorer documents ps query limit).
    rewrite search_unfold, recommend_documents_indices, ranked_indices_take by done.
    rewrite <- (full_ranking_unique scorer query _ order); [done | | done].
    by rewrite length_fmap.
  - intros st1 st2 H1 H2. unfold render. by rewrite H1, H2.
Qed.

Lemma search_deterministic_witness :
  script_search sample_analyzer prefix_scorer [doc_quantum; doc_classical; doc_bare]
    all_filters "Classical" 2
  = Some [doc_classical; doc_quantum].
Proof.
  pose proof (search_deterministic sample_analyzer prefix_scorer
                [doc_quantum; doc_classical; doc_bare] all_filters "Classical" 2)
    as (_ & Horder & _).
  rewrite (Horder [1; 0; 2]).
  - reflexivity.
  - by eexists.
  - discriminate.
  - apply perm_swap.
  - repeat constructor;
      eexists _, _; (split; [reflexivity |]); (split; [reflexivity |]);
      vm_compute; first [by left | right; split; [done | lia]].
Defined.

(** * Further properties of the script *)

(** ** The sidebar and the filter *)

Section sidebar.
Implicit Types (documents : list Doc) (doc : Doc) (ps : PredicateSet).

Lemma prefix_substring (n : nat) (s : string) :
  String.prefix (String.substring 0 n s) s = true.
Proof.
  revert n. induction s as [|c s IH]; intros [|n]; simpl; try done.
  destruct (Ascii.ascii_dec c c); [apply IH | done].
Qed.

Lemma length_substring_le (n : nat) (s : string) :
  String.length (String.substring 0 n s) ≤ n.
Proof.
  revert n. induction s as [|c s IH]; intros [|n]; simpl; try lia.
  specialize (IH n). lia.
Qed.

Lemma filtered_nonempty ps documents doc :
  doc ∈ documents → doc_passes ps doc = true →
  filtered_documents ps documents ≠ [].
Proof.
  intros Hin Hpass Hnil.
  assert (doc ∈ filtered_documents ps documents) as Hdoc
    by (by apply elem_of_filtered).
  rewrite Hnil in Hdoc. by apply elem_of_nil in Hdoc.
Qed.

Lemma filtered_empty ps documents :
  (∀ doc, doc ∈ documents → doc_passes ps doc = false) →
  filtered_documents ps documents = [].
Proof.
  intros Hnone. apply elem_of_nil_inv. intros doc [Hin Hpass]%elem_of_filtered.
  rewrite (Hnone doc Hin) in Hpass. discriminate.
Qed.

(** For every year but the empty string the condition of the filter is
    the one the specification words. *)
Lemma filter_meets_spec ps documents doc :
  selected_update_date ps ≠ "" →
  doc ∈ filtered_documents ps documents ↔ doc ∈ documents ∧ passes_spec ps doc.
Proof.
  intros Hyear.
  rewrite elem_of_filtered, doc_passes_true, year_constraint_iff,
    category_constraint_iff.
  unfold passes_spec. split.
  - intros (Hin & [Hy | [Hy | [_ Hy]]] & Hrest); [| | done];
      (split; [done |]); (split; [| done]); [by left | by right].
  - intros (Hin & [Hy | Hy] & Hrest);
      (split; [done |]); (split; [| done]); [by left | right; by left].
Qed.

Lemma filter_filter_andb {A} (f g : A → bool) (l : list A) :
  List.filter f (List.filter g l) = List.filter (λ x, g x && f x) l.
Proof.
  induction l as [|x l IH]; simpl; [done |].
  destruct (g x); simpl; [destruct (f x) |]; by rewrite IH.
Qed.

(** The condition is the conjunction of the three single constraints. *)
Lemma doc_passes_split ps doc :
  doc_passes ps doc
  = doc_passes (only_category (selected_category ps)) doc
    && doc_passes (only_submitter (selected_submitter ps)) doc
    && doc_passes (only_update_date (selected_update_date ps)) doc.
Proof.
  unfold doc_passes, only_category, only_submitter, only_update_date. simpl.
  rewrite !andb_true_r.
  destruct (_ || _), (_ || _), (_ || _); reflexivity.
Qed.
End sidebar.

(** C2: for every selection of the sidebar, the filter retains a
    document if and only if the year is "All" or its [update_date] starts
    with the selected year, the submitter is "All" or is its submitter,
    and the category is "All" or is one of its categories; a field the
    document does not have meets no concrete constraint, and a document
    with empty categories is excluded by any concrete category. *)
Theorem filter_retains_offered (all documents : list Doc) (ps : PredicateSet)
    (doc : Doc) :
  offered all ps →
  (doc ∈ filtered_documents ps documents ↔
     doc ∈ documents
     ∧ (selected_update_date ps = "All"
        ∨ ∃ date, update_date doc = Some date
                  ∧ starts_with date (selected_update_date ps))
     ∧ (selected_submitter ps = "All" ∨ submitter doc = Some (selected_submitter ps))
     ∧ (selected_category ps = "All"
        ∨ ∃ cats, categories doc = Some cats ∧ selected_category ps ∈ cats))
  ∧ (update_date doc = None → selected_update_date ps ≠ "All" →
     doc ∉ filtered_documents ps documents)
  ∧ (submitter doc = None → selected_submitter ps ≠ "All" →
     doc ∉ filtered_documents ps documents)
  ∧ (categories doc = None ∨ categories doc = Some [] →
     selected_category ps ≠ "All" → doc ∉ filtered_documents ps documents).
Proof.
  intros (Hyear & _).
  assert (Hne : selected_update_date ps ≠ "").
  { apply elem_of_cons in Hyear as [-> | Hyear]; [discriminate |].
    by apply (offered_years_nonempty all). }
  pose proof (filter_meets_spec ps documents doc Hne) as Hiff.
  unfold passes_spec in Hiff.
  split; [exact Hiff |]. rewrite Hiff. split; [| split].
  - intros Hnone Hall (_ & [? | (date & Hd & _)] & _); congruence.
  - intros Hnone Hall (_ & _ & [? | ?] & _); congruence.
  - intros Hcats Hall (_ & _ & _ & [? | (cats & Hc & Hin)]); [done |].
    destruct Hcats as [Hn | Hn]; rewrite Hn in Hc; [done |].
    inversion Hc; subst. by apply elem_of_nil in Hin.
Qed.

Lemma filter_retains_offered_witness :
  doc_classical ∈ filtered_documents year_2019 [doc_quantum; doc_classical; doc_bare]
  ∧ doc_bare ∉ filtered_documents year_2019 [doc_quantum; doc_classical; doc_bare].
Proof.
  assert (Hoffered : offered [doc_quantum; doc_classical; doc_bare] year_2019).
  { split; [| split]; vm_compute; [right; left | left | left]. }
  pose proof (filter_retains_offered _ [doc_quantum; doc_classical; doc_bare]
                year_2019 doc_classical Hoffered) as (Hiff & _).
  pose proof (filter_retains_offered _ [doc_quantum; doc_classical; doc_bare]
                year_2019 doc_bare Hoffered) as (_ & Hdate & _).
  split.
  - apply Hiff. split; [right; left |].
    split; [right; exists "2019-11-30"; split;
              [reflexivity | by exists "-11-30"] |].
    split; by left.
  - apply Hdate; [reflexivity | discriminate].
Defined.

(** Every value a selectbox lists beside "All", selected alone, retains
    at least one document. *)
Theorem offered_option_matches (documents : list Doc) :
  (∀ year, year ∈ update_dates documents →
           filtered_documents (only_update_date year) documents ≠ [])
  ∧ (∀ name, name ∈ submitters documents →
           filtered_documents (only_submitter name) documents ≠ [])
  ∧ (∀ cat, cat ∈ categories_of documents →
           filtered_documents (only_category cat) documents ≠ []).
Proof.
  split; [| split].
  - intros year (doc & date & Hin & Hdate & _ & ->)%elem_of_update_dates.
    apply (filtered_nonempty _ _ doc Hin), doc_passes_true. simpl.
    split; [right | split; by left].
    rewrite Hdate. apply prefix_substring.
  - intros name (doc & Hin & Hname & _)%elem_of_submitters.
    apply (filtered_nonempty _ _ doc Hin), doc_passes_true. simpl.
    split; [by left | split; [by right | by left]].
  - intros cat (doc & cats & Hin & Hcats & Hcat)%elem_of_categories_of.
    apply (filtered_nonempty _ _ doc Hin), doc_passes_true. simpl.
    split; [by left | split; [by left | right]].
    by rewrite Hcats.
Qed.

Lemma offered_option_matches_witness :
  filtered_documents (only_update_date "2019") [doc_quantum; doc_classical; doc_bare] ≠ [].
Proof.
  pose proof (offered_option_matches [doc_quantum; doc_classical; doc_bare])
    as (Hyear & _).
  apply Hyear. vm_compute. left.
Defined.

(** A category that no document carries, and a non-empty submitter that
    no document has, retain nothing, whatever the other two selections. *)
Theorem unlisted_value_matches_nothing (documents : list Doc) (ps : PredicateSet) :
  (selected_category ps ≠ "All" →
   selected_category ps ∉ categories_of documents →
   filtered_documents ps documents = [])
  ∧ (selected_submitter ps ≠ "All" → selected_submitter ps ≠ "" →
     selected_submitter ps ∉ submitters documents →
     filtered_documents ps documents = []).
Proof.
  split.
  - intros Hall Hout. apply filtered_empty. intros doc Hin.
    apply not_true_is_false. intros (_ & _ & [? | Hcat])%doc_passes_true; [done |].
    apply Hout, elem_of_categories_of.
    apply category_constraint_iff in Hcat as (cats & Hcats & Hc). by exists doc, cats.
  - intros Hall Hne Hout. apply filtered_empty. intros doc Hin.
    apply not_true_is_false. intros (_ & [? | Hname] & _)%doc_passes_true; [done |].
    apply Hout, elem_of_submitters. by exists doc.
Qed.

Lemma unlisted_value_matches_nothing_witness :
  filtered_documents (only_category "cs.LG") [doc_quantum; doc_classical; doc_bare] = []
  ∧ filtered_documents (only_submitter "carol") [doc_quantum; doc_classical; doc_bare] = [].
Proof.
  pose proof (unlisted_value_matches_nothing [doc_quantum; doc_classical; doc_bare]
                (only_category "cs.LG")) as [Hcat _].
  pose proof (unlisted_value_matches_nothing [doc_quantum; doc_classical; doc_bare]
                (only_submitter "carol")) as [_ Hname].
  split.
  - apply Hcat; [discriminate |]. vm_compute. intros H.
    repeat (apply elem_of_cons in H as [H | H]; [discriminate |]).
    by apply elem_of_nil in H.
  - apply Hname; [discriminate | discriminate |]. vm_compute. intros H.
    repeat (apply elem_of_cons in H as [H | H]; [discriminate |]).
    by apply elem_of_nil in H.
Defined.

(** For every selection the sidebar can produce, the filter retains
    exactly the documents that meet the three constraints as the
    specification words them: the empty year, on which the two differ, is
    never offered. *)
Theorem offered_selection_meets_spec (documents all : list Doc)
    (ps : PredicateSet) (doc : Doc) :
  offered all ps →
  doc ∈ filtered_documents ps documents ↔ doc ∈ documents ∧ passes_spec ps doc.
Proof.
  intros (Hyear & _). apply filter_meets_spec.
  apply elem_of_cons in Hyear as [-> | Hyear]; [discriminate |].
  by apply (offered_years_nonempty all).
Qed.

Lemma offered_selection_meets_spec_witness :
  doc_classical ∈ filtered_documents year_2019 [doc_quantum; doc_classical; doc_bare]
  ↔ doc_classical ∈ [doc_quantum; doc_classical; doc_bare]
    ∧ passes_spec year_2019 doc_classical.
Proof.
  apply (offered_selection_meets_spec _ [doc_quantum; doc_classical; doc_bare]).
  split; [| split]; vm_compute; [right; left | left | left].
Defined.

(** The three constraints can be applied at once or one after another:
    the filter is the composition of the three single filters, filtering
    twice with one selection changes nothing, and two filters commute. *)
Theorem filter_composes (documents : list Doc) (ps : PredicateSet) :
  filtered_documents ps documents
  = filtered_documents (only_update_date (selected_update_date ps))
      (filtered_documents (only_submitter (selected_submitter ps))
         (filtered_documents (only_category (selected_category ps)) documents))
  ∧ filtered_documents ps (filtered_documents ps documents)
    = filtered_documents ps documents
  ∧ ∀ ps', filtered_documents ps (filtered_documents ps' documents)
           = filtered_documents ps' (filtered_documents ps documents).
Proof.
  unfold filtered_documents. rewrite !filter_filter_andb. split; [| split].
  - apply List.filter_ext. intros doc. rewrite andb_assoc. apply doc_passes_split.
  - apply List.filter_ext. intros doc. by destruct (doc_passes ps doc).
  - intros ps'. rewrite !filter_filter_andb.
    apply List.filter_ext. intros doc. apply andb_comm.
Qed.

(** Every year the sidebar lists is one to four characters long and
    opens the [update_date] of some document. *)
Theorem offered_year_shape (documents : list Doc) (year : string) :
  year ∈ update_dates documents →
  1 ≤ String.length year ≤ 4
  ∧ ∃ doc date, doc ∈ documents ∧ update_date doc = Some date
                ∧ starts_with date year.
Proof.
  intros (doc & date & Hin & Hdate & Hne & ->)%elem_of_update_dates.
  split.
  - split; [| apply length_substring_le].
    destruct date; [done | simpl; lia].
  - exists doc, date. split; [done |]. split; [done |].
    apply prefix_true_iff, prefix_substring.
Qed.

Lemma offered_year_shape_witness :
  1 ≤ String.length "2020" ≤ 4
  ∧ ∃ doc date, doc ∈ [doc_quantum; doc_bare] ∧ update_date doc = Some date
                ∧ starts_with date "2020".
Proof.
  apply (offered_year_shape [doc_quantum; doc_bare] "2020").
  vm_compute. left.
Defined.

(** The two lists the loop fills stay parallel to the documents: as many
    identifiers as texts as documents, the i-th identifier being the
    [_id] of the i-th document. *)
Theorem ids_entry (documents : list Doc) :
  length (ids documents) = length documents
  ∧ length (ids documents) = length (corpus documents)
  ∧ ∀ i, ids documents !! i = _id <$> documents !! i.
Proof.
  rewrite ids_fmap, corpus_fmap, !length_fmap.
  split; [done |]. split; [done |].
  intros i. apply list_lookup_fmap.
Qed.

(** ** The ranker's output as documents *)

Section ranked_documents.
Context (scorer : Scorer) (query : string).
Implicit Types (texts : list string) (documents recs : list Doc) (limit : nat).

Lemma mapM_Some_fmap {A B} (f : A → option B) (g : A → B) (l : list A) :
  (∀ x, x ∈ l → f x = Some (g x)) → mapM f l = Some (g <$> l).
Proof.
  induction l as [|x l IH]; intros Hf; [done |].
  simpl. rewrite (Hf x) by left. simpl.
  rewrite IH; [done |]. intros y Hy. apply Hf. by right.
Qed.

(** Reading every position of a list gives the list back. *)
Lemma fmap_lookup_seq documents :
  (λ i, default doc_bare (documents !! i)) <$> seq 0 (length documents) = documents.
Proof.
  apply list_eq. intros i. rewrite list_lookup_fmap.
  destruct (documents !! i) as [doc|] eqn:Hdoc.
  - rewrite lookup_seq_lt by (by eapply lookup_lt_Some). simpl. by rewrite Hdoc.
  - rewrite lookup_seq_ge; [done |]. by apply lookup_ge_None.
Qed.

(** Without [IndexError] the result is the documents at the ranked
    positions. *)
Lemma recommend_documents_fmap texts documents limit :
  length texts ≤ length documents →
  recommend_documents scorer query texts documents limit
  = Some ((λ i, default doc_bare (documents !! i))
            <$> take limit (full_ranking scorer query texts)).
Proof.
  intros Hlen.
  rewrite recommend_documents_indices, ranked_indices_take.
  apply mapM_Some_fmap. intros i Hi.
  rewrite <- ranked_indices_take in Hi. apply ranked_indices_bound in Hi.
  destruct (lookup_lt_is_Some_2 documents i) as [doc Hdoc]; [lia |].
  by rewrite Hdoc.
Qed.

Lemma ranked_documents_perm texts documents :
  length texts = length documents →
  (λ i, default doc_bare (documents !! i)) <$> full_ranking scorer query texts
  ≡ₚ documents.
Proof.
  intros Hlen. rewrite full_ranking_perm, Hlen. by rewrite fmap_lookup_seq.
Qed.

(** A relation that holds between ranked positions holds between the
    documents found there. *)
Lemma StronglySorted_Forall2 {A B} (R : relation A) (R' : relation B)
    (P : A → B → Prop) (l : list A) (k : list B) :
  (∀ a a' b b', R a a' → P a b → P a' b' → R' b b') →
  Forall2 P l k → StronglySorted R l → StronglySorted R' k.
Proof.
  intros Hrel Hall. induction Hall as [|a b l k Hab Hall IH]; intros Hsorted.
  - constructor.
  - apply StronglySorted_cons in Hsorted as [Hhead Hsorted].
    apply StronglySorted_cons. split; [| by apply IH].
    apply Forall_forall. intros b' [j Hj]%list_elem_of_lookup_1.
    destruct (Forall2_lookup_r _ _ _ _ _ Hall Hj) as (a' & Ha' & Hab').
    apply (Hrel a a' b b'); [| done | done].
    rewrite Forall_forall in Hhead. apply Hhead. by eapply list_elem_of_lookup_2.
Qed.

(** On the texts of the candidates themselves, a position that ranks
    before another has a score at least as high. *)
Lemma ranks_before_score documents i j (a b : Doc) :
  ranks_before scorer query (text_of <$> documents) i j →
  documents !! i = Some a → documents !! j = Some b →
  Qle (scorer query (text_of b)) (scorer query (text_of a)).
Proof.
  intros (ti & tj & Hi & Hj & Hij) Ha Hb.
  rewrite list_lookup_fmap, Ha in Hi. rewrite list_lookup_fmap, Hb in Hj.
  simpl in Hi, Hj. inversion Hi; inversion Hj; subst.
  destruct Hij as [Hlt | [Heq _]]; lra.
Qed.

Lemma ranked_documents_sorted documents limit recs :
  recommend_documents scorer query (text_of <$> documents) documents limit = Some recs →
  StronglySorted
    (λ a b, Qle (scorer query (text_of b)) (scorer query (text_of a))) recs.
Proof.
  intros Hall%recommend_documents_lookup.
  eapply (StronglySorted_Forall2 _ _ _ _ _ _ Hall), ranked_indices_sorted.
  Unshelve. intros i j a b Hij Ha Hb. by eapply ranks_before_score.
Qed.

Lemma ranked_documents_ahead documents limit recs (r d : Doc) :
  recommend_documents scorer query (text_of <$> documents) documents limit = Some recs →
  r ∈ recs → d ∈ documents → d ∉ recs →
  Qle (scorer query (text_of d)) (scorer query (text_of r)).
Proof.
  intros Hall%recommend_documents_lookup
         [k Hk]%list_elem_of_lookup_1 [j Hj]%list_elem_of_lookup_1 Hout.
  destruct (Forall2_lookup_r _ _ _ _ _ Hall Hk) as (i & Hi & Hr).
  apply (ranks_before_score documents i j); [| done | done].
  apply (ranked_indices_ahead scorer query _ limit).
  - by eapply list_elem_of_lookup_2.
  - rewrite length_fmap. by eapply lookup_lt_Some.
  - intros [k' Hk']%list_elem_of_lookup_1.
    destruct (Forall2_lookup_l _ _ _ _ _ Hall Hk') as (d' & Hd' & Hjd).
    rewrite Hj in Hjd. inversion Hjd; subst.
    apply Hout. by eapply list_elem_of_lookup_2.
Qed.
End ranked_documents.

(** The documents the ranker returns are candidates, each position used
    at most once: the result is a sub-multiset of the candidate documents,
    and a rearrangement of all of them when the limit is not below their
    number. *)
Theorem recommend_documents_candidates (scorer : Scorer) (query : string)
    (texts : list string) (documents : list Doc) (limit : nat) :
  length texts = length documents →
  ∃ recs,
    recommend_documents scorer query texts documents limit = Some recs
    ∧ recs ⊆+ documents
    ∧ (length documents ≤ limit → recs ≡ₚ documents).
Proof.
  intros Hlen. eexists. split; [apply recommend_documents_fmap; lia |]. split.
  - apply submseteq_sublist_l. eexists. split.
    + apply fmap_sublist, sublist_take.
    + by apply ranked_documents_perm.
  - intros Hlimit. rewrite take_ge; [by apply ranked_documents_perm |].
    rewrite (Permutation_length (full_ranking_perm scorer query texts)), length_seq.
    lia.
Qed.

Lemma recommend_documents_candidates_witness :
  ∃ recs,
    recommend_documents prefix_scorer "Classical"
      [text_of doc_quantum; text_of doc_classical] [doc_quantum; doc_classical] 5
    = Some recs
    ∧ recs ≡ₚ [doc_quantum; doc_classical].
Proof.
  destruct (recommend_documents_candidates prefix_scorer "Classical"
              [text_of doc_quantum; text_of doc_classical]
              [doc_quantum; doc_classical] 5 eq_refl) as (recs & Hrecs & _ & Hperm).
  exists recs. split; [exact Hrecs |]. apply Hperm. simpl. lia.
Defined.

(** Raising the limit only appends: the result for a limit is the
    result for any larger limit cut to the smaller one. *)
Theorem recommend_documents_limit_prefix (scorer : Scorer) (query : string)
    (texts : list string) (documents : list Doc) (limit limit' : nat) :
  length texts ≤ length documents → limit ≤ limit' →
  ∃ recs recs',
    recommend_documents scorer query texts documents limit = Some recs
    ∧ recommend_documents scorer query texts documents limit' = Some recs'
    ∧ recs = take limit recs'.
Proof.
  intros Hlen Hlimit. eexists _, _.
  split; [by apply recommend_documents_fmap |].
  split; [by apply recommend_documents_fmap |].
  rewrite <- fmap_take, take_take. by rewrite Nat.min_l.
Qed.

Lemma recommend_documents_limit_prefix_witness :
  ∃ recs recs',
    recommend_documents prefix_scorer "Classical"
      [text_of doc_quantum; text_of doc_classical] [doc_quantum; doc_classical] 1
    = Some recs
    ∧ recommend_documents prefix_scorer "Classical"
        [text_of doc_quantum; text_of doc_classical] [doc_quantum; doc_classical] 2
      = Some recs'
    ∧ recs = take 1 recs'.
Proof.
  apply recommend_documents_limit_prefix; simpl; lia.
Defined.

(** The ranker raises [IndexError] exactly when a ranked position lies
    past the end of the documents: never when there is a document for
    every text, always when there are fewer documents than texts and the
    limit covers all the texts. *)
Theorem recommend_documents_index_error (scorer : Scorer) (query : string)
    (texts : list string) (documents : list Doc) (limit : nat) :
  (recommend_documents scorer query texts documents limit = None ↔
     ∃ i, i ∈ ranked_indices scorer query texts limit ∧ length documents ≤ i)
  ∧ (length texts ≤ length documents →
     is_Some (recommend_documents scorer query texts documents limit))
  ∧ (length documents < length texts → length texts ≤ limit →
     recommend_documents scorer query texts documents limit = None).
Proof.
  assert (Hnone : recommend_documents scorer query texts documents limit = None ↔
     ∃ i, i ∈ ranked_indices scorer query texts limit ∧ length documents ≤ i).
  { rewrite recommend_documents_indices, mapM_None, Exists_exists.
    split; intros (i & Hi & Hlookup); exists i; (split; [done |]).
    - by apply lookup_ge_None.
    - by apply lookup_ge_None. }
  split; [exact Hnone |]. split.
  - intros Hlen. rewrite recommend_documents_fmap by done. by eexists.
  - intros Hshort Hlimit. apply Hnone. exists (length documents).
    split; [| done].
    rewrite ranked_indices_take, take_ge, full_ranking_perm.
    + apply elem_of_seq. lia.
    + rewrite (Permutation_length (full_ranking_perm scorer query texts)), length_seq.
      lia.
Qed.

Lemma recommend_documents_index_error_witness :
  recommend_documents prefix_scorer "Classical"
    [text_of doc_quantum; text_of doc_classical] [doc_quantum] 2 = None.
Proof.
  pose proof (recommend_documents_index_error prefix_scorer "Classical"
                [text_of doc_quantum; text_of doc_classical] [doc_quantum] 2)
    as (_ & _ & Hshort).
  apply Hshort; simpl; lia.
Defined.

(** ** What the search returns *)

Section search_results.
Context (scorer : Scorer).
Implicit Types (documents recs : list Doc) (ps : PredicateSet) (query : string).

(** With a query, the search is the filtered documents read at the
    ranked positions. *)
Lemma search_fmap documents ps query limit :
  query ≠ "" →
  search scorer documents ps query limit
  = Some ((λ i, default doc_bare (filtered_documents ps documents !! i))
            <$> take limit (full_ranking scorer query
                              (text_of <$> filtered_documents ps documents))).
Proof.
  intros Hq. rewrite search_unfold by done.
  apply recommend_documents_fmap. by rewrite length_fmap.
Qed.

Lemma search_submseteq documents ps query limit recs :
  search scorer documents ps query limit = Some recs →
  recs ⊆+ filtered_documents ps documents.
Proof.
  destruct (String.eqb_spec query "") as [-> | Hq].
  - intros [= <-]. apply submseteq_nil_l.
  - rewrite search_fmap by done. intros [= <-].
    apply submseteq_sublist_l. eexists. split.
    + apply fmap_sublist, sublist_take.
    + apply ranked_documents_perm. by rewrite length_fmap.
Qed.
End search_results.

(** A run returns recommendations exactly when line 42 finds a term, and
    it never returns a document that the filter rejects: its result is a
    sub-multiset of the filtered documents, of min(limit, number of
    filtered documents) entries under a query, and a rearrangement of all
    the filtered documents when the limit is not below their number. *)
Theorem search_results_filtered (analyze : Analyzer) (scorer : Scorer)
    (documents : list Doc) (ps : PredicateSet) (query : string) (limit : nat) :
  (is_Some (script_search analyze scorer documents ps query limit)
   ↔ is_Some (fit_transform analyze (corpus documents)))
  ∧ ∀ recs,
      script_search analyze scorer documents ps query limit = Some recs →
      Forall (λ rec, rec ∈ documents ∧ doc_passes ps rec = true) recs
      ∧ recs ⊆+ filtered_documents ps documents
      ∧ length recs ≤ limit
      ∧ (query ≠ "" →
         length recs = min limit (length (filtered_documents ps documents)))
      ∧ (query ≠ "" → length (filtered_documents ps documents) ≤ limit →
         recs ≡ₚ filtered_documents ps documents).
Proof.
  split; [apply script_search_is_Some |].
  intros recs [_ Hrecs]%script_search_Some.
  pose proof (search_submseteq scorer _ _ _ _ _ Hrecs) as Hsub.
  split; [| split; [done |]].
  { apply Forall_forall. intros rec Hrec.
    apply elem_of_filtered. by apply (elem_of_submseteq recs). }
  assert (Hlen : query ≠ "" →
    length recs = min limit (length (filtered_documents ps documents))).
  { intros Hq. rewrite search_fmap in Hrecs by done. injection Hrecs as <-.
    rewrite length_fmap, length_take.
    rewrite (Permutation_length (full_ranking_perm scorer query _)).
    by rewrite length_seq, length_fmap. }
  split; [| split; [done |]].
  - destruct (String.eqb_spec query "") as [-> | Hq].
    + injection Hrecs as <-. simpl. lia.
    + rewrite Hlen by done. lia.
  - intros Hq Hlimit. apply submseteq_length_Permutation; [done |].
    rewrite Hlen by done. lia.
Qed.

Lemma search_results_filtered_witness :
  ∃ recs,
    script_search sample_analyzer prefix_scorer
      [doc_quantum; doc_classical; doc_bare] year_2019 "Classical" 5
    = Some recs
    ∧ recs ≡ₚ [doc_classical].
Proof.
  destruct (search_results_filtered sample_analyzer prefix_scorer
              [doc_quantum; doc_classical; doc_bare] year_2019 "Classical" 5)
    as (Hsome & Hall).
  destruct (proj2 Hsome) as [recs Hrecs]; [by eexists |].
  exists recs. split; [exact Hrecs |].
  destruct (Hall recs Hrecs) as (_ & _ & _ & _ & Hperm).
  apply Hperm; [discriminate | simpl; lia].
Defined.

(** The recommendations of a run come best first: each scores, on its
    own searchable text, at least as high as every recommendation after it
    and as every filtered document that is not recommended. *)
Theorem search_results_by_score (analyze : Analyzer) (scorer : Scorer)
    (documents : list Doc) (ps : PredicateSet) (query : string) (limit : nat)
    (recs : list Doc) :
  script_search analyze scorer documents ps query limit = Some recs →
  StronglySorted
    (λ a b, Qle (scorer query (text_of b)) (scorer query (text_of a))) recs
  ∧ ∀ r d, r ∈ recs → d ∈ filtered_documents ps documents → d ∉ recs →
           Qle (scorer query (text_of d)) (scorer query (text_of r)).
Proof.
  intros [_ Hrecs]%script_search_Some.
  destruct (String.eqb_spec query "") as [-> | Hq].
  - injection Hrecs as <-. split; [constructor |].
    intros r d Hr. by apply elem_of_nil in Hr.
  - rewrite search_unfold in Hrecs by done. split.
    + by eapply ranked_documents_sorted.
    + intros r d. by eapply ranked_documents_ahead.
Qed.

Lemma search_results_by_score_witness :
  Qle (prefix_scorer "Classical" (text_of doc_quantum))
      (prefix_scorer "Classical" (text_of doc_classical)).
Proof.
  destruct (search_results_by_score sample_analyzer prefix_scorer
              [doc_quantum; doc_classical] all_filters "Classical" 1
              [doc_classical] eq_refl) as (_ & Hahead).
  apply Hahead.
  - left.
  - vm_compute. left.
  - intros Hin. apply elem_of_cons in Hin as [Heq | Hin]; [discriminate |].
    by apply elem_of_nil in Hin.
Defined.

(** ** What the pages write *)

Section display.
Implicit Types (rec course : Doc) (recs : list Doc) (exps : list Expander).

Lemma show_recommendation_is_Some i rec :
  is_Some (show_recommendation i rec) ↔ displayable rec.
Proof.
  unfold show_recommendation, displayable.
  destruct (title rec), (abstract rec); simpl; split;
    try (intros [? ?]; done); try (intros [[? ?] [? ?]]; done); eauto.
Qed.

Lemma show_course_is_Some course :
  is_Some (show_course course) ↔ displayable course.
Proof.
  unfold show_course, displayable.
  destruct (title course), (abstract course); simpl; split;
    try (intros [? ?]; done); try (intros [[? ?] [? ?]]; done); eauto.
Qed.

Lemma show_course_length course lines :
  show_course course = Some lines → length lines = 7.
Proof.
  unfold show_course.
  destruct (title course), (abstract course); simpl; intros [= <-]; done.
Qed.

Lemma expanders_from_is_Some (start : nat) recs :
  is_Some (mapM (λ '(i, rec), show_recommendation i rec) (enumerate_from start recs))
  ↔ Forall displayable recs.
Proof.
  revert start. induction recs as [|rec recs IH]; intros start.
  - split; [constructor | by eexists].
  - cbn [enumerate_from]. rewrite mapM_is_Some, Forall_cons, <- mapM_is_Some, IH.
    rewrite Forall_cons. simpl. by rewrite show_recommendation_is_Some.
Qed.

Lemma expanders_from_lookup (start : nat) recs exps :
  mapM (λ '(i, rec), show_recommendation i rec) (enumerate_from start recs) = Some exps →
  ∀ i, exps !! i = recs !! i ≫= show_recommendation (start + i).
Proof.
  intros Hall%mapM_Some_1 i.
  destruct (recs !! i) as [rec|] eqn:Hrec; simpl.
  - assert (enumerate_from start recs !! i = Some (start + i, rec)) as Hi
      by (by rewrite enumerate_from_lookup, Hrec).
    destruct (Forall2_lookup_l _ _ _ _ _ Hall Hi) as (e & He & Hshow).
    by rewrite He.
  - apply lookup_ge_None. rewrite <- (Forall2_length _ _ _ Hall).
    apply lookup_ge_None. by rewrite enumerate_from_lookup, Hrec.
Qed.

Lemma home_expanders_of_is_Some recs :
  is_Some (home_expanders_of recs) ↔ Forall displayable recs.
Proof. apply expanders_from_is_Some. Qed.

Lemma home_expanders_of_lookup recs exps :
  home_expanders_of recs = Some exps →
  ∀ i, exps !! i = recs !! i ≫= show_recommendation i.
Proof. intros Hexps i. by rewrite (expanders_from_lookup 0 recs exps Hexps i). Qed.

Lemma home_expanders_of_length recs exps :
  home_expanders_of recs = Some exps → length exps = length recs.
Proof.
  intros Hexps. apply Nat.le_antisymm; apply Nat.nlt_ge; intros Hlt.
  - destruct (lookup_lt_is_Some_2 exps (length recs)) as [e He]; [lia |].
    rewrite (home_expanders_of_lookup _ _ Hexps), lookup_ge_None_2 in He; done.
  - destruct (lookup_lt_is_Some_2 recs (length exps)) as [rec Hrec]; [lia |].
    assert (is_Some (exps !! length exps)) as [e He].
    { rewrite (home_expanders_of_lookup _ _ Hexps), Hrec. simpl.
      apply show_recommendation_is_Some.
      apply mk_is_Some, home_expanders_of_is_Some in Hexps.
      rewrite Forall_forall in Hexps. apply Hexps.
      by eapply list_elem_of_lookup_2. }
    apply lookup_lt_Some in He. lia.
Qed.

Lemma expander_key recs exps i e :
  home_expanders_of recs = Some exps → exps !! i = Some e →
  exp_key e = "save_" +:+ pretty i.
Proof.
  intros Hexps He. rewrite (home_expanders_of_lookup _ _ Hexps) in He.
  destruct (recs !! i) as [rec|]; [| done]. simpl in He.
  unfold show_recommendation in He.
  destruct (title rec), (abstract rec); simpl in He; try done.
  by injection He as <-.
Qed.

Lemma saved_courses_page_is_Some (st : SessionState) :
  is_Some (saved_courses_page st) ↔ Forall displayable (selected_courses st).
Proof.
  unfold saved_courses_page. destruct (selected_courses st) as [|course courses].
  - split; [constructor | by eexists].
  - rewrite fmap_is_Some, mapM_is_Some. apply Forall_proper; [| done].
    intros c. apply show_course_is_Some.
Qed.
End display.

(** A run of the Home page raises [ValueError] when line 42 finds no
    term.  When it finds one, the run raises [KeyError] exactly when a
    recommended document lacks a title or an abstract, which the corpus
    builder, the filter and the ranker all accept, and cannot when every
    document has both; a run that does not raise writes one expander per
    recommendation, the i-th for the i-th recommendation. *)
Theorem home_page_key_error (analyze : Analyzer) (scorer : Scorer)
    (documents : list Doc) (ps : PredicateSet) (query : string) :
  (fit_transform analyze (corpus documents) = None →
   script_home_expanders analyze scorer documents ps query = None)
  ∧ (is_Some (fit_transform analyze (corpus documents)) →
     ∃ recs,
       script_search analyze scorer documents ps query 50 = Some recs
       ∧ (is_Some (script_home_expanders analyze scorer documents ps query)
          ↔ Forall displayable recs)
       ∧ (Forall displayable documents →
          is_Some (script_home_expanders analyze scorer documents ps query))
       ∧ (∀ exps,
            script_home_expanders analyze scorer documents ps query = Some exps →
            length exps = length recs
            ∧ ∀ i, exps !! i = recs !! i ≫= show_recommendation i)).
Proof.
  unfold script_home_expanders. split; [by intros -> |].
  intros Hfit. unfold script_search.
  rewrite script_search_with_passed by done.
  destruct Hfit as [terms ->]. simpl.
  fold (search scorer documents ps query 50).
  unfold home_expanders, home_recommendations.
  destruct (search_total scorer documents ps query 50) as [recs Hrecs].
  exists recs. split; [done |]. rewrite Hrecs. simpl.
  split; [apply home_expanders_of_is_Some |]. split.
  - intros Hall. apply home_expanders_of_is_Some, Forall_forall.
    intros rec Hrec. rewrite Forall_forall in Hall. apply Hall.
    apply (search_submseteq scorer _ _ _ _ _) in Hrecs.
    apply (elem_of_submseteq _ _ _ Hrec) in Hrecs.
    by apply elem_of_filtered in Hrecs as [? _].
  - intros exps Hexps. split.
    + by apply home_expanders_of_length.
    + by apply home_expanders_of_lookup.
Qed.

Lemma home_page_key_error_witness :
  script_home_expanders sample_analyzer prefix_scorer [doc_stop_words]
    all_filters "the" = None
  ∧ script_home_expanders sample_analyzer prefix_scorer [doc_quantum; doc_bare]
      all_filters "Quantum" = None
  ∧ is_Some (script_home_expanders sample_analyzer prefix_scorer
               [doc_quantum; doc_classical] all_filters "Quantum").
Proof.
  split; [| split].
  - by apply (home_page_key_error sample_analyzer prefix_scorer [doc_stop_words]
                all_filters "the").
  - destruct (home_page_key_error sample_analyzer prefix_scorer
                [doc_quantum; doc_bare] all_filters "Quantum") as (_ & Hpassed).
    destruct Hpassed as (recs & Hrecs & Hiff & _); [by eexists |].
    apply eq_None_not_Some. rewrite Hiff. injection Hrecs as <-.
    intros Hall. apply Forall_cons in Hall as [_ Hall].
    apply Forall_cons in Hall as [[[t Ht] _] _]. discriminate.
  - destruct (home_page_key_error sample_analyzer prefix_scorer
                [doc_quantum; doc_classical] all_filters "Quantum")
      as (_ & Hpassed).
    destruct Hpassed as (_ & _ & _ & Hall & _); [by eexists |].
    apply Hall. repeat constructor; by eexists.
Defined.

(** The Save buttons of one page have pairwise distinct keys. *)
Theorem save_keys_distinct (recs : list Doc) (exps : list Expander) :
  home_expanders_of recs = Some exps → NoDup (exp_key <$> exps).
Proof.
  intros Hexps. apply NoDup_alt. intros i j key Hi Hj.
  rewrite list_lookup_fmap in Hi, Hj.
  destruct (exps !! i) as [ei|] eqn:Hei; [| done].
  destruct (exps !! j) as [ej|] eqn:Hej; [| done].
  simpl in Hi, Hj.
  rewrite (expander_key _ _ _ _ Hexps Hei) in Hi.
  rewrite (expander_key _ _ _ _ Hexps Hej) in Hj.
  rewrite <- Hj in Hi. simpl in Hi.
  injection Hi as Hpretty. change (pretty i = pretty j) in Hpretty.
  by apply (inj pretty) in Hpretty.
Qed.

Lemma save_keys_distinct_witness :
  ∃ exps, home_expanders_of [doc_quantum; doc_quantum] = Some exps
          ∧ NoDup (exp_key <$> exps).
Proof.
  eexists. split; [reflexivity |].
  by apply (save_keys_distinct [doc_quantum; doc_quantum]).
Defined.

(** What the pages write for a missing field: the submitter reads
    "Unknown", the year "Unkn" (the default cut to four characters like a
    date), the categories are empty, and a saved course without a link is
    written with the link "None". *)
Theorem display_defaults (i : nat) (doc : Doc) (t a : string) :
  title doc = Some t → abstract doc = Some a →
  (submitter doc = None → update_date doc = None → categories doc = None →
   exp_lines <$> show_recommendation i doc
   = Some ["**Submitter:** Unknown"; "**Update Year:** Unkn"; "**Categories:** ";
           "**Abstract:** " +:+ a])
  ∧ (submitter doc = None → update_date doc = None → categories doc = None →
     link doc = None →
     show_course doc
     = Some ["### " +:+ t; "**Submitter:** Unknown"; "**Update Year:** Unkn";
             "**Categories:** "; "**Abstract:** " +:+ a; "[Link to Paper](None)";
             "---"])
  ∧ (∀ date, update_date doc = Some date →
       ∃ e lines, show_recommendation i doc = Some e ∧ show_course doc = Some lines
         ∧ exp_lines e !! 1 = Some ("**Update Year:** " +:+ String.substring 0 4 date)
         ∧ lines !! 2 = Some ("**Update Year:** " +:+ String.substring 0 4 date)).
Proof.
  intros Ht Ha. unfold show_recommendation, show_course. rewrite Ht, Ha.
  split; [| split].
  - by intros -> -> ->.
  - by intros -> -> -> ->.
  - intros date ->. by eexists _, _.
Qed.

Lemma display_defaults_witness :
  show_course doc_quantum
  = Some ["### Quantum Computing Basics"; "**Submitter:** alice";
          "**Update Year:** 2020"; "**Categories:** quant-ph";
          "**Abstract:** intro to qubits"; "[Link to Paper](None)"; "---"]
  ∧ ∃ e, show_recommendation 0 doc_quantum = Some e
         ∧ exp_lines e !! 1 = Some "**Update Year:** 2020".
Proof.
  split; [reflexivity |].
  destruct (display_defaults 0 doc_quantum "Quantum Computing Basics"
              "intro to qubits" eq_refl eq_refl) as (_ & _ & Hdate).
  destruct (Hdate "2020-01-05" eq_refl) as (e & lines & He & _ & Hline & _).
  by exists e.
Defined.

(** ** Sessions *)

Section sessions.
Context (scorer : Scorer) (documents : list Doc).
Implicit Types (st : SessionState) (w : Widgets) (ev : Event)
  (clicks : list (Widgets * Event)).

(** One click leaves the saved courses as they are or appends one
    recommendation that the Home page displayed. *)
Lemma step_selected_courses st w ev :
  selected_courses (step scorer documents st w ev) = selected_courses st
  ∨ ∃ rec, selected_courses (step scorer documents st w ev)
           = selected_courses st ++ [rec]
           ∧ rec ∈ documents ∧ displayable rec
           ∧ page st = Home ∧ w_query w ≠ "".
Proof.
  unfold step. destruct (page st) eqn:Hpage.
  - destruct (String.eqb_spec (w_query w) "") as [Hq | Hq]; [by left |].
    destruct (home_recommendations scorer documents (w_filters w) (w_query w))
      as [recs|] eqn:Hrecs; [| by left].
    destruct ev as [i | |]; [| by destruct (home_expanders_of recs); left | by left].
    destruct (home_expanders_of (take (S i) recs)) as [exps|] eqn:Hexps; [| by left].
    destruct (recs !! i) as [rec|] eqn:Hrec; [| by left].
    right. exists rec. split; [done |]. split; [| split; [| done]].
    + apply (search_submseteq scorer) in Hrecs.
      assert (rec ∈ filtered_documents (w_filters w) documents) as Hin.
      { apply (elem_of_submseteq recs); [by eapply list_elem_of_lookup_2 | done]. }
      by apply elem_of_filtered in Hin as [? _].
    + apply mk_is_Some, home_expanders_of_is_Some in Hexps.
      rewrite Forall_forall in Hexps. apply Hexps.
      apply (list_elem_of_lookup_2 _ i). rewrite lookup_take_lt by lia. done.
  - destruct ev; try (by left). destruct (saved_courses_page st); by left.
Qed.

Lemma run_snoc st clicks w ev :
  run scorer documents st (clicks ++ [(w, ev)])
  = step scorer documents (run scorer documents st clicks) w ev.
Proof. unfold run. by rewrite fold_left_app. Qed.

Lemma run_prefix st clicks :
  selected_courses st `prefix_of` selected_courses (run scorer documents st clicks).
Proof.
  induction clicks as [|[w ev] clicks IH] using rev_ind; [done |].
  rewrite run_snoc.
  destruct (step_selected_courses (run scorer documents st clicks) w ev)
    as [-> | (rec & -> & _)]; [done | by apply prefix_app_r].
Qed.

Lemma run_Forall (P : Doc → Prop) st clicks :
  (∀ rec, rec ∈ documents → displayable rec → P rec) →
  Forall P (selected_courses st) →
  Forall P (selected_courses (run scorer documents st clicks)).
Proof.
  intros HP Hst.
  induction clicks as [|[w ev] clicks IH] using rev_ind; [done |].
  rewrite run_snoc.
  destruct (step_selected_courses (run scorer documents st clicks) w ev)
    as [-> | (rec & -> & Hin & Hshow & _)]; [done |].
  apply Forall_app. split; [done |]. constructor; [by apply HP | constructor].
Qed.

Lemma run_displayable clicks :
  Forall displayable (selected_courses (run scorer documents init_session clicks)).
Proof. apply run_Forall; [done | constructor]. Qed.

Lemma step_empty_query st w ev :
  page st = Home → w_query w = "" → step scorer documents st w ev = st.
Proof. intros Hpage Hq. unfold step. by rewrite Hpage, Hq. Qed.

Lemma show_courses_length (courses : list Doc) (blocks : list (list string)) :
  mapM show_course courses = Some blocks →
  length (mjoin blocks) = 7 * length courses.
Proof.
  revert blocks. induction courses as [|course courses IH]; intros blocks.
  - by intros [= <-].
  - simpl. destruct (show_course course) as [lines|] eqn:Hlines; [| done].
    simpl. destruct (mapM show_course courses) as [rest|]; [| done].
    simpl. intros [= <-]. simpl.
    rewrite length_app, (show_course_length _ _ Hlines), (IH rest eq_refl). lia.
Qed.
End sessions.

(** Nothing removes a saved course: whatever is clicked, the courses
    saved before stay, in order, at the head of the saved courses. *)
Theorem saved_courses_grow (scorer : Scorer) (documents : list Doc)
    (st : SessionState) (clicks : list (Widgets * Event)) :
  selected_courses st
  `prefix_of` selected_courses (run scorer documents st clicks).
Proof. apply run_prefix. Qed.

(** In a session that starts empty every saved course is a document of
    the collection that has a title and an abstract, since a Save button
    is reached only after both were written; so the Saved Courses page
    never raises [KeyError]. *)
Theorem saved_courses_displayable (scorer : Scorer) (documents : list Doc)
    (clicks : list (Widgets * Event)) :
  Forall (λ course, course ∈ documents ∧ displayable course)
         (selected_courses (run scorer documents init_session clicks))
  ∧ is_Some (saved_courses_page (run scorer documents init_session clicks)).
Proof.
  split.
  - apply run_Forall; [done | constructor].
  - apply saved_courses_page_is_Some, run_displayable.
Qed.

(** In a session that starts empty the Back button always works: from
    either page it leads to the Home page and keeps the saved courses. *)
Theorem back_home_works (scorer : Scorer) (documents : list Doc)
    (clicks : list (Widgets * Event)) (w : Widgets) :
  page (step scorer documents (run scorer documents init_session clicks)
             w ClickBackHome) = Home
  ∧ selected_courses (step scorer documents
                           (run scorer documents init_session clicks)
                           w ClickBackHome)
    = selected_courses (run scorer documents init_session clicks).
Proof.
  pose proof (run_displayable scorer documents clicks) as Hshow.
  apply saved_courses_page_is_Some in Hshow as [lines Hlines].
  unfold step.
  destruct (page (run scorer documents init_session clicks)) eqn:Hpage.
  - destruct (String.eqb (w_query w) ""); [done |].
    by destruct (home_recommendations scorer documents (w_filters w) (w_query w)).
  - by rewrite Hlines.
Qed.

(** While the query box is empty no button of the Home page acts: a
    session clicked through with an empty query stays as it started, and
    the Saved Courses page is entered only by the View button under a
    non-empty query. *)
Theorem empty_query_no_action (scorer : Scorer) (documents : list Doc) :
  (∀ clicks, Forall (λ click, w_query click.1 = "") clicks →
             run scorer documents init_session clicks = init_session)
  ∧ (∀ st w ev, page st = Home →
       page (step scorer documents st w ev) = SelectedCourses →
       w_query w ≠ "" ∧ ev = ClickViewSelected).
Proof.
  split.
  - intros clicks Hempty.
    induction clicks as [|[w ev] clicks IH] using rev_ind; [done |].
    apply Forall_app in Hempty as [Hclicks Hlast].
    apply Forall_cons in Hlast as [Hq _].
    rewrite run_snoc, IH by done. by apply step_empty_query.
  - intros st w ev Hpage. unfold step. rewrite Hpage.
    destruct (String.eqb_spec (w_query w) "") as [Hq | Hq]; [congruence |].
    destruct (home_recommendations scorer documents (w_filters w) (w_query w))
      as [recs|]; [| congruence].
    destruct ev as [i | |]; [| | congruence].
    + destruct (home_expanders_of (take (S i) recs)), (recs !! i);
        simpl; congruence.
    + done.
Qed.

Lemma empty_query_no_action_witness :
  run prefix_scorer [doc_quantum; doc_classical] init_session
    [({| w_filters := all_filters; w_query := "" |}, ClickSave 0);
     ({| w_filters := year_2019; w_query := "" |}, ClickViewSelected)]
  = init_session.
Proof.
  destruct (empty_query_no_action prefix_scorer [doc_quantum; doc_classical])
    as [Hrun _].
  apply Hrun. repeat constructor.
Defined.

(** The Saved Courses page writes the notice when nothing is saved and
    seven lines per saved course otherwise; it raises [KeyError] exactly
    when a saved course lacks a title or an abstract. *)
Theorem saved_courses_page_shape (st : SessionState) :
  (selected_courses st = [] →
   saved_courses_page st = Some ["No courses selected yet."])
  ∧ (is_Some (saved_courses_page st) ↔ Forall displayable (selected_courses st))
  ∧ (∀ lines, selected_courses st ≠ [] → saved_courses_page st = Some lines →
       length lines = 7 * length (selected_courses st)).
Proof.
  split; [| split].
  - unfold saved_courses_page. by intros ->.
  - apply saved_courses_page_is_Some.
  - intros lines Hne. unfold saved_courses_page.
    destruct (selected_courses st) as [|course courses] eqn:Hcourses; [done |].
    destruct (mapM show_course (course :: courses)) as [blocks|] eqn:Hblocks;
      [| done].
    intros [= <-]. by apply show_courses_length.
Qed.

Lemma saved_courses_page_shape_witness :
  saved_courses_page init_session = Some ["No courses selected yet."]
  ∧ ∀ lines,
      saved_courses_page (save_course init_session doc_quantum) = Some lines →
      length lines = 7.
Proof.
  split.
  - by apply (saved_courses_page_shape init_session).
  - intros lines Hlines.
    destruct (saved_courses_page_shape (save_course init_session doc_quantum))
      as (_ & _ & Hlen).
    by apply (Hlen lines).
Defined.
